(** * FluxCache: the entry store, the hash ring and the write coordinator

    A shallow embedding of [cmd/cache-node/main.go] and
    [pkg/cluster/cluster.go].

    Conventions of the embedding.
    - Go's [int] and [int64] are [Z] ([int] is 64 bits wide on the targets
      of [Docker/], so a [uint32] hash converts without loss); the one
      place where the program can leave the 64-bit range, the TTL
      multiplication of [Cache.Set], has its wrap-around written out
      ([wrap64]).
    - A [time.Time] is the number of nanoseconds since the Unix epoch.  The
      clock is an input: every [time.Now()] of the source is a parameter of
      the function that reads it.
    - [sync.Map], [map[int]string] and [map[string]bool] are [gmap]s; the
      handlers are modelled one request at a time (sequential semantics).
    - Outgoing peer requests are returned by the handlers as a list.  The
      verdict of [http.NewRequest] on a URL is an input of [handleDelete],
      the one caller that drops its error. *)

From stdpp Require Import gmap strings list fin_maps pretty sorting.
From Stdlib Require Import ZArith Lia.

Local Open Scope Z_scope.

(** ** SHA-1 ([crypto/sha1]), as used by [hashKey] *)

Module SHA1.

Definition mask32 (x : Z) : Z := Z.land x 4294967295.

Definition rotl (n x : Z) : Z :=
  mask32 (Z.lor (Z.shiftl x n) (Z.shiftr x (32 - n))).

Definition add32 (x y : Z) : Z := mask32 (x + y).

Definition bytes_of_string (s : string) : list Z :=
  (fun a => Z.of_N (Ascii.N_of_ascii a)) <$> String.list_ascii_of_string s.

(** The [n] low bytes of [x], most significant first. *)
Fixpoint be_bytes (n : nat) (x : Z) : list Z :=
  match n with
  | O => []
  | S n' => be_bytes n' (Z.shiftr x 8) ++ [Z.land x 255]
  end.

Definition pad (msg : list Z) : list Z :=
  let len := Z.of_nat (length msg) in
  let zeros := Z.to_nat ((55 - len) mod 64) in
  msg ++ [128] ++ replicate zeros 0 ++ be_bytes 8 (8 * len).

Fixpoint be_words (fuel : nat) (bs : list Z) : list Z :=
  match fuel, bs with
  | S f, b0 :: b1 :: b2 :: b3 :: rest =>
      Z.lor (Z.shiftl b0 24)
        (Z.lor (Z.shiftl b1 16) (Z.lor (Z.shiftl b2 8) b3))
      :: be_words f rest
  | _, _ => []
  end.

Record state := St { ha : Z; hb : Z; hc : Z; hd : Z; he : Z }.

Definition init : state :=
  St 1732584193 4023233417 2562383102 271733878 3285377520.

Definition round_f (t : nat) (b c d : Z) : Z * Z :=
  if (t <? 20)%nat then
    (Z.lor (Z.land b c) (Z.land (Z.lxor b 4294967295) d), 1518500249)
  else if (t <? 40)%nat then (Z.lxor b (Z.lxor c d), 1859775393)
  else if (t <? 60)%nat then
    (Z.lor (Z.lor (Z.land b c) (Z.land b d)) (Z.land c d), 2400959708)
  else (Z.lxor b (Z.lxor c d), 3395469782).

(** [win] is the sliding window w[t], ..., w[t+15] of the message
    schedule. *)
Fixpoint rounds (n t : nat) (win : list Z) (s : state) : state :=
  match n with
  | O => s
  | S n' =>
      let w := win !!! 0%nat in
      let nxt :=
        rotl 1 (Z.lxor (win !!! 13%nat)
                  (Z.lxor (win !!! 8%nat) (Z.lxor (win !!! 2%nat) w))) in
      let '(f, k) := round_f t (hb s) (hc s) (hd s) in
      let tmp :=
        add32 (add32 (add32 (add32 (rotl 5 (ha s)) f) (he s)) k) w in
      rounds n' (S t) (tail win ++ [nxt])
        (St tmp (ha s) (rotl 30 (hb s)) (hc s) (hd s))
  end.

Definition block (s : state) (ws : list Z) : state :=
  let r := rounds 80 0 ws s in
  St (add32 (ha s) (ha r)) (add32 (hb s) (hb r)) (add32 (hc s) (hc r))
     (add32 (hd s) (hd r)) (add32 (he s) (he r)).

Fixpoint blocks (fuel : nat) (s : state) (ws : list Z) : state :=
  match fuel with
  | O => s
  | S f =>
      match ws with
      | [] => s
      | _ => blocks f (block s (take 16 ws)) (drop 16 ws)
      end
  end.

Definition digest (msg : list Z) : state :=
  let p := pad msg in
  let ws := be_words (length p) p in
  blocks (length ws) init ws.

(** [h.Sum(nil)]: the twenty bytes of the digest. *)
Definition sum (msg : list Z) : list Z :=
  let s := digest msg in
  be_bytes 4 (ha s) ++ be_bytes 4 (hb s) ++ be_bytes 4 (hc s)
    ++ be_bytes 4 (hd s) ++ be_bytes 4 (he s).

End SHA1.

(** ** Time ([time] package, as far as the program uses it) *)

Definition Second : Z := 1000000000.
Definition Millisecond : Z := 1000000.

(** Two's-complement reduction of a product or sum to [int64]. *)
Definition wrap64 (x : Z) : Z :=
  (x + 9223372036854775808) mod 18446744073709551616 - 9223372036854775808.

(** [t.Unix()]: whole seconds since the epoch, rounded down. *)
Definition Unix (t : Z) : Z := t / Second.

(** [t.UnixNano()]. *)
Definition UnixNano (t : Z) : Z := t.

(** [t.Add(d)]. *)
Definition Add (t d : Z) : Z := t + d.

(** ** The entry store ([main.go], lines 18-78) *)

(** [interface{}] values are opaque to the store; they are kept as their
    JSON text. *)
Definition Payload : Type := string.

Record CacheItem := mkItem {
  Value : Payload;
  Expiration : Z;   (* Unix timestamp, 0 means no expiration *)
  LastUpdated : Z;  (* Unix timestamp (ms) of last update *)
}.

Global Instance CacheItem_eq_dec : EqDecision CacheItem.
Proof. solve_decision. Defined.

Abbreviation Cache := (gmap string CacheItem).

Definition NewCache : Cache := ∅.

(** The expiration computed at the head of [Cache.Set]. *)
Definition expiry (ttlSeconds now : Z) : Z :=
  if 0 <? ttlSeconds then Unix (Add now (wrap64 (ttlSeconds * Second)))
  else 0.

Definition Cache_Set (c : Cache) (key : string) (value : Payload)
    (ttlSeconds lastUpdated : Z) (now : Z) : Cache * bool :=
  let exp := expiry ttlSeconds now in
  let item := mkItem value exp lastUpdated in
  match c !! key with
  | None => (<[key := item]> c, true)
  | Some existing =>
      if LastUpdated existing <=? lastUpdated
      then (<[key := item]> c, true)
      else (c, false)
  end.

Definition Cache_Get (c : Cache) (key : string) (now : Z)
    : Cache * option Payload :=
  match c !! key with
  | None => (c, None)
  | Some item =>
      if (0 <? Expiration item) && (Expiration item <? Unix now)
      then (delete key c, None)
      else (c, Some (Value item))
  end.

Definition Cache_Delete (c : Cache) (key : string) : Cache := delete key c.

(** Store operations as data, to speak about histories of one store. *)
Inductive StoreOp :=
| OpSet (key : string) (value : Payload) (ttlSeconds lastUpdated now : Z)
| OpGet (key : string) (now : Z)
| OpDelete (key : string).

Definition store_step (c : Cache) (op : StoreOp) : Cache :=
  match op with
  | OpSet key value ttl ts now => (Cache_Set c key value ttl ts now).1
  | OpGet key now => (Cache_Get c key now).1
  | OpDelete key => Cache_Delete c key
  end.

Definition store_run (c : Cache) (ops : list StoreOp) : Cache :=
  foldl store_step c ops.

(** One write to a fixed key, as it reaches [Cache.Set]. *)
Record Write := mkWrite {
  wValue : Payload;
  wTTL : Z;
  wStamp : Z;
  wNow : Z;
}.

Definition write_item (w : Write) : CacheItem :=
  mkItem (wValue w) (expiry (wTTL w) (wNow w)) (wStamp w).

Definition apply_write (key : string) (c : Cache) (w : Write) : Cache :=
  (Cache_Set c key (wValue w) (wTTL w) (wStamp w) (wNow w)).1.

(** Whether the key is resident after every step of a history. *)
Fixpoint resident_throughout (key : string) (c : Cache) (ops : list StoreOp)
    : Prop :=
  match ops with
  | [] => True
  | op :: rest =>
      is_Some (store_step c op !! key)
      ∧ resident_throughout key (store_step c op) rest
  end.

(** Re-deliveries of one write at the clock readings [nows]: the store
    they leave and what each call of [Cache.Set] returned. *)
Fixpoint replay (c : Cache) (key : string) (value : Payload)
    (ttlSeconds lastUpdated : Z) (nows : list Z) : Cache * list bool :=
  match nows with
  | [] => (c, [])
  | now :: rest =>
      let r := Cache_Set c key value ttlSeconds lastUpdated now in
      let rs := replay r.1 key value ttlSeconds lastUpdated rest in
      (rs.1, r.2 :: rs.2)
  end.

(** ** The hash ring ([cluster.go], lines 18-77 and 163-185) *)

Definition hashKey (key : string) : Z :=
  let bs := SHA1.sum (SHA1.bytes_of_string key) in
  Z.lor (Z.shiftl (bs !!! 16%nat) 24)
    (Z.lor (Z.shiftl (bs !!! 17%nat) 16)
       (Z.lor (Z.shiftl (bs !!! 18%nat) 8) (bs !!! 19%nat))).

Record HashRing := mkRing {
  replicas : Z;
  nodes : list Z;            (* Sorted hash ring *)
  nodeMap : gmap Z string;   (* hash -> nodeID *)
}.

Definition NewHashRing (replicas : Z) : HashRing := mkRing replicas [] ∅.

(** [fmt.Sprintf("%s#%d", nodeID, i)]. *)
Definition pointName (nodeID : string) (i : Z) : string :=
  nodeID +:+ "#" +:+ pretty i.

(** [sort.Ints]: on integers every sorting algorithm returns the same
    list, the sorted permutation of its input. *)
Definition sortInts (l : list Z) : list Z := merge_sort Z.le l.

(** The body of the loop of [AddNode]. *)
Definition addPoint (nodeID : string) (h : HashRing) (i : Z) : HashRing :=
  let hash := hashKey (pointName nodeID i) in
  mkRing (replicas h) (nodes h ++ [hash]) (<[hash := nodeID]> (nodeMap h)).

Definition AddNode (h : HashRing) (nodeID : string) : HashRing :=
  let h' :=
    foldl (addPoint nodeID) h (Z.of_nat <$> seq 0 (Z.to_nat (replicas h))) in
  mkRing (replicas h') (sortInts (nodes h')) (nodeMap h').

(** The hashes of the first [r] virtual points of a node, in the order
    [AddNode] appends them. *)
Definition pointsOf (nodeID : string) (r : Z) : list Z :=
  (fun i => hashKey (pointName nodeID i))
    <$> (Z.of_nat <$> seq 0 (Z.to_nat r)).

(** [h.nodeMap[hash]]: a missing key reads as the empty string. *)
Definition owner (m : gmap Z string) (hash : Z) : string :=
  default "" (m !! hash).

(** The body of the loop of [RemoveNode], on the pair of the slice being
    rebuilt and the map being pruned. *)
Definition removePoint (nodeID : string) (st : list Z * gmap Z string)
    (hash : Z) : list Z * gmap Z string :=
  if decide (owner st.2 hash = nodeID)
  then (st.1, delete hash st.2)
  else (st.1 ++ [hash], st.2).

Definition RemoveNode (h : HashRing) (nodeID : string) : HashRing :=
  let st := foldl (removePoint nodeID) ([], nodeMap h) (nodes h) in
  mkRing (replicas h) st.1 st.2.

(** [sort.Search(n, f)]: the binary search of the standard library.  The
    interval [i, j) shrinks at every turn, so [n] turns are enough. *)
Fixpoint searchLoop (fuel : nat) (f : Z → bool) (i j : Z) : Z :=
  match fuel with
  | O => i
  | S fuel' =>
      if i <? j then
        let h := (i + j) / 2 in
        if negb (f h) then searchLoop fuel' f (h + 1) j
        else searchLoop fuel' f i h
      else i
  end.

Definition Search (n : Z) (f : Z → bool) : Z := searchLoop (Z.to_nat n) f 0 n.

(** [h.nodes[i]]. *)
Definition pointAt (h : HashRing) (i : Z) : Z := nodes h !!! Z.to_nat i.

Definition len (h : HashRing) : Z := Z.of_nat (length (nodes h)).

(** The index both lookups start from: the search, then the wrap to 0. *)
Definition startIndex (h : HashRing) (hash : Z) : Z :=
  let idx := Search (len h) (fun i => hash <=? pointAt h i) in
  if idx =? len h then 0 else idx.

Definition GetNode (h : HashRing) (key : string) : string :=
  if len h =? 0 then ""
  else owner (nodeMap h) (pointAt h (startIndex h (hashKey key))).

(** The loop of [GetReplicas]; [fuel] counts the turns left before [i]
    reaches [len(h.nodes)*2]. *)
Fixpoint replicasLoop (h : HashRing) (idx replicaCount : Z) (fuel : nat)
    (i : Z) (seen : gset string) (acc : list string) : list string :=
  match fuel with
  | O => acc
  | S fuel' =>
      if (Z.of_nat (length acc) <? replicaCount) && (i <? len h * 2) then
        let nodeID := owner (nodeMap h) (pointAt h ((idx + i) mod len h)) in
        if decide (nodeID ∈ seen)
        then replicasLoop h idx replicaCount fuel' (i + 1) seen acc
        else replicasLoop h idx replicaCount fuel' (i + 1)
               ({[nodeID]} ∪ seen) (acc ++ [nodeID])
      else acc
  end.

Definition GetReplicas (h : HashRing) (key : string) (replicaCount : Z)
    : list string :=
  if (len h =? 0) || (replicaCount <=? 0) then []
  else
    let idx := startIndex h (hashKey key) in
    replicasLoop h idx replicaCount (Z.to_nat (len h * 2)) 0 ∅ [].

(** *** The walk of [top_k], in the words of the design *)

(** The node ID of the point [m] steps clockwise from [start]. *)
Definition visited (h : HashRing) (start : Z) (m : nat) : string :=
  owner (nodeMap h) (pointAt h ((start + Z.of_nat m) mod len h)).

(** Node IDs met on a clockwise walk of [2·|points|] points from
    [start]. *)
Definition walk (h : HashRing) (start : Z) : list string :=
  visited h start <$> seq 0 (2 * length (nodes h)).

(** Keep the first occurrence of every ID not in [seen]. *)
Fixpoint firstSeen (seen : gset string) (l : list string) : list string :=
  match l with
  | [] => []
  | x :: rest =>
      if decide (x ∈ seen) then firstSeen seen rest
      else x :: firstSeen ({[x]} ∪ seen) rest
  end.

(** The node IDs of all points of the ring. *)
Definition owners (h : HashRing) : list string :=
  owner (nodeMap h) <$> nodes h.

(** Two nodes with a pair of virtual points that hash to the same 32 bits:
    point 42 of the first and point 40 of the second. *)
Definition collidingRing : HashRing :=
  AddNode (AddNode (NewHashRing 100) "node671:8080") "node1557:8080".

(** Rings built by the program. *)
Inductive ring_built : HashRing → Prop :=
| built_new r : ring_built (NewHashRing r)
| built_add h nodeID : ring_built h → ring_built (AddNode h nodeID)
| built_remove h nodeID : ring_built h → ring_built (RemoveNode h nodeID).

(** ** Health tracker and cluster ([cluster.go], lines 79-199) *)

Record Node := mkNode {
  ID : string;    (* Unique node ID (e.g., host:port) *)
  Addr : string;  (* Address for communication *)
}.

Global Instance Node_eq_dec : EqDecision Node.
Proof. solve_decision. Defined.

Record NodeHealthTracker := mkTracker { status : gmap string bool }.

Definition NewNodeHealthTracker : NodeHealthTracker := mkTracker ∅.

Definition IsNodeHealthy (n : NodeHealthTracker) (nodeID : string) : bool :=
  match status n !! nodeID with
  | Some healthy => healthy
  | None => false
  end.

Definition MarkNodeHealth (n : NodeHealthTracker) (nodeID : string)
    (healthy : bool) : NodeHealthTracker :=
  mkTracker (<[nodeID := healthy]> (status n)).

Record Cluster := mkCluster {
  Nodes : gmap string Node;
  Ring : HashRing;                     (* the field HashRing *)
  SelfID : string;
  Health : option NodeHealthTracker;   (* nil until the monitor starts *)
}.

Definition NewCluster (selfID : string) (nodeAddrs : list string)
    (replicas : Z) : Cluster :=
  let st :=
    foldl (fun (st : gmap string Node * HashRing) addr =>
             (<[addr := mkNode addr addr]> st.1, AddNode st.2 addr))
          (∅, NewHashRing replicas) nodeAddrs in
  mkCluster st.1 st.2 selfID None.

(** The synchronous part of [StartHealthMonitor]. *)
Definition StartHealthMonitor (c : Cluster) : Cluster :=
  match Health c with
  | None => mkCluster (Nodes c) (Ring c) (SelfID c) (Some NewNodeHealthTracker)
  | Some _ => c
  end.

(** One turn of the monitor's loop over the node table; [alive] is the
    outcome of the heartbeat request to a peer. *)
Definition probeRound (c : Cluster) (selfID : string) (alive : Node → bool)
    : Cluster :=
  match Health c with
  | None => c
  | Some tr =>
      let tr' :=
        map_fold (fun id node tr =>
                    if decide (id = selfID) then MarkNodeHealth tr id true
                    else MarkNodeHealth tr id (alive node))
                 tr (Nodes c) in
      mkCluster (Nodes c) (Ring c) (SelfID c) (Some tr')
  end.

Definition GetResponsibleNode (c : Cluster) (key : string) : option Node :=
  Nodes c !! GetNode (Ring c) key.

Definition GetResponsibleNodes (c : Cluster) (key : string)
    (replicaCount : Z) : list Node :=
  omap (fun id => Nodes c !! id) (GetReplicas (Ring c) key replicaCount).

(** ** The request handlers ([main.go], lines 80-228) *)

(** The decoded body of [POST /set]. *)
Record SetRequest := mkSet {
  Key : string;
  ReqValue : Payload;
  TTL : Z;
  ReqLastUpdated : Z;   (* 0 when the body has no last_updated *)
}.

Record Response := mkResp { StatusCode : Z; Body : string }.

Definition StatusOK : Z := 200.
Definition StatusNoContent : Z := 204.
Definition StatusBadRequest : Z := 400.
Definition StatusNotFound : Z := 404.
Definition StatusConflict : Z := 409.
Definition StatusServiceUnavailable : Z := 503.

Definition newline : string := String (Ascii.ascii_of_nat 10) EmptyString.

(** [http.Error(w, msg, code)]. *)
Definition httpError (msg : string) (code : Z) : Response :=
  mkResp code (msg +:+ newline).

(** [w.WriteHeader(code)] with nothing written after it. *)
Definition writeHeader (code : Z) : Response := mkResp code "".

(** What a handler leaves behind: the reply, the local store, and the
    requests it sent to peers ([forwardRequest] and the delete fan-out). *)
Record Outcome (Msg : Type) := mkOutcome {
  reply : Response;
  store : Cache;
  sent : list (Node * Msg);
}.
Arguments mkOutcome {Msg} _ _ _.
Arguments reply {Msg} _.
Arguments store {Msg} _.
Arguments sent {Msg} _.

(** The test of the replica loop shared by the three handlers:
    [clust.Health == nil || clust.Health.IsNodeHealthy(node.ID)]. *)
Definition treatedHealthy (clust : Cluster) (node : Node) : bool :=
  match Health clust with
  | None => true
  | Some tr => IsNodeHealthy tr (ID node)
  end.

(** The replica loop: [healthyReplicas] and [isReplica]. *)
Definition replicaLoop (clust : Cluster) (selfID : string)
    (replicas : list Node) : list Node * bool :=
  foldl (fun (st : list Node * bool) node =>
           (if treatedHealthy clust node then st.1 ++ [node] else st.1,
            if decide (ID node = selfID) then true else st.2))
        ([], false) replicas.

(** The timestamp a write carries after line 107-109; [tReq] is the clock
    read there.  Go's integer division truncates. *)
Definition stampOf (req : SetRequest) (tReq : Z) : Z :=
  if ReqLastUpdated req =? 0 then Z.quot (UnixNano tReq) Millisecond
  else ReqLastUpdated req.

Definition withStamp (req : SetRequest) (ts : Z) : SetRequest :=
  mkSet (Key req) (ReqValue req) (TTL req) ts.

(** [handleSet].  [body] is [None] when the JSON body does not decode;
    [tReq] is the clock read when the timestamp is defaulted and [tSet]
    the clock read inside [Cache.Set]. *)
Definition handleSet (clust : Cluster) (selfID : string) (replicaCount : Z)
    (cache : Cache) (body : option SetRequest) (tReq tSet : Z)
    : Outcome SetRequest :=
  match body with
  | None => mkOutcome (httpError "invalid request" StatusBadRequest) cache []
  | Some req0 =>
      if decide (Key req0 = "") then
        mkOutcome (httpError "key required" StatusBadRequest) cache []
      else
        let req := withStamp req0 (stampOf req0 tReq) in
        let replicas := GetResponsibleNodes clust (Key req) replicaCount in
        let '(healthyReplicas, isReplica) :=
          replicaLoop clust selfID replicas in
        if decide (length healthyReplicas = 0%nat) then
          mkOutcome (httpError "no healthy replicas" StatusServiceUnavailable)
            cache []
        else if negb isReplica then
          mkOutcome (writeHeader StatusNoContent) cache
            ((fun node => (node, req))
               <$> filter (fun node => ID node ≠ selfID) healthyReplicas)
        else
          let '(cache', updated) :=
            Cache_Set cache (Key req) (ReqValue req) (TTL req)
              (ReqLastUpdated req) tSet in
          if negb updated then
            mkOutcome
              (mkResp StatusConflict
                 "conflict: incoming update is older than current value")
              cache' []
          else mkOutcome (writeHeader StatusNoContent) cache' []
  end.

(** How a handler run ends: it returns with its reply written, or it
    panics.  The server recovers a handler's panic and closes the
    connection, so the client gets no reply; what was stored and sent
    before the panic stays. *)
Inductive Run (Msg : Type) :=
| Returned (out : Outcome Msg)
| Panicked (cache : Cache) (sentSoFar : list (Node * Msg)).
Arguments Returned {Msg} _.
Arguments Panicked {Msg} _ _.

Definition runReply {Msg} (r : Run Msg) : option Response :=
  match r with
  | Returned out => Some (reply out)
  | Panicked _ _ => None
  end.

Definition runStore {Msg} (r : Run Msg) : Cache :=
  match r with
  | Returned out => store out
  | Panicked cache _ => cache
  end.

Definition runSent {Msg} (r : Run Msg) : list (Node * Msg) :=
  match r with
  | Returned out => sent out
  | Panicked _ sentSoFar => sentSoFar
  end.

(** The URL [handleDelete] builds for a peer: the key is pasted in as it
    is, without escaping. *)
Definition deleteURL (node : Node) (key : string) : string :=
  "http://" +:+ Addr node +:+ "/delete?key=" +:+ key.

(** The forwarding loop of [handleDelete] on a node that is not a replica.
    [NewRequest url] tells whether [http.NewRequest("DELETE", url, nil)]
    builds a request or returns an error with a nil request.  The code
    drops the error and hands whatever it got to [http.DefaultClient.Do],
    which panics on a nil request.  The result is the requests handed to
    the client, each as the peer and the URL it was built from, and
    whether the loop ran to its end. *)
Fixpoint deleteLoop (NewRequest : string → bool) (selfID key : string)
    (healthyReplicas : list Node) : list (Node * string) * bool :=
  match healthyReplicas with
  | [] => ([], true)
  | node :: rest =>
      if decide (ID node ≠ selfID) then
        if NewRequest (deleteURL node key) then
          let '(sentOn, finished) :=
            deleteLoop NewRequest selfID key rest in
          ((node, deleteURL node key) :: sentOn, finished)
        else ([], false)
      else deleteLoop NewRequest selfID key rest
  end.

(** [handleDelete]; the key is the query parameter. *)
Definition handleDelete (NewRequest : string → bool) (clust : Cluster)
    (selfID : string) (replicaCount : Z) (cache : Cache) (key : string) :
    Run string :=
  if decide (key = "") then
    Returned (mkOutcome (httpError "key required" StatusBadRequest) cache [])
  else
    let replicas := GetResponsibleNodes clust key replicaCount in
    let '(healthyReplicas, isReplica) := replicaLoop clust selfID replicas in
    if decide (length healthyReplicas = 0%nat) then
      Returned
        (mkOutcome (httpError "no healthy replicas" StatusServiceUnavailable)
           cache [])
    else if negb isReplica then
      let '(sentOn, finished) :=
        deleteLoop NewRequest selfID key healthyReplicas in
      if finished then
        Returned (mkOutcome (writeHeader StatusNoContent) cache sentOn)
      else Panicked cache sentOn
    else
      Returned
        (mkOutcome (writeHeader StatusNoContent) (Cache_Delete cache key) []).

(** The reply of [handleGet]: an error, the JSON object built from the
    local store, or the body of a peer's 200 reply copied through. *)
Inductive GetReply :=
| GetError (r : Response)
| GetLocal (key : string) (value : Payload) (last_updated : option Z)
| GetPeer (body : string).

(** The loop of [handleGet] over the healthy replicas.  [peer node] is the
    body of the peer's reply when [http.Get] succeeds with status 200. *)
Fixpoint getLoop (selfID : string) (cache : Cache) (key : string) (now : Z)
    (peer : Node → option string) (healthyReplicas : list Node)
    : GetReply * Cache :=
  match healthyReplicas with
  | [] => (GetError (httpError "not found" StatusNotFound), cache)
  | node :: rest =>
      if decide (ID node = selfID) then
        match Cache_Get cache key now with
        | (cache', Some value) =>
            (GetLocal key value (LastUpdated <$> cache' !! key), cache')
        | (cache', None) => getLoop selfID cache' key now peer rest
        end
      else
        match peer node with
        | Some body => (GetPeer body, cache)
        | None => getLoop selfID cache key now peer rest
        end
  end.

Definition handleGet (clust : Cluster) (selfID : string) (replicaCount : Z)
    (cache : Cache) (key : string) (now : Z) (peer : Node → option string)
    : GetReply * Cache :=
  if decide (key = "") then
    (GetError (httpError "key required" StatusBadRequest), cache)
  else
    let replicas := GetResponsibleNodes clust key replicaCount in
    let healthyReplicas := (replicaLoop clust selfID replicas).1 in
    if decide (length healthyReplicas = 0%nat) then
      (GetError (httpError "no healthy replicas" StatusServiceUnavailable),
       cache)
    else getLoop selfID cache key now peer healthyReplicas.

(** The requests one process serves, with the clock readings, the peer
    answers and the verdicts of [http.NewRequest] each of them meets. *)
Inductive Request :=
| PostSet (body : option SetRequest) (tReq tSet : Z)
| GetKey (key : string) (now : Z) (peer : Node → option string)
| DeleteKey (key : string) (NewRequest : string → bool).

(** The store of a process after it has served a request. *)
Definition serve (clust : Cluster) (selfID : string) (replicaCount : Z)
    (cache : Cache) (r : Request) : Cache :=
  match r with
  | PostSet body tReq tSet =>
      store (handleSet clust selfID replicaCount cache body tReq tSet)
  | GetKey key now peer =>
      (handleGet clust selfID replicaCount cache key now peer).2
  | DeleteKey key NewRequest =>
      runStore (handleDelete NewRequest clust selfID replicaCount cache key)
  end.

(** The clock readings a request takes for defaulting a timestamp. *)
Definition stampClock (r : Request) : option Z :=
  match r with
  | PostSet _ tReq _ => Some tReq
  | _ => None
  end.

(** ** A cluster of nodes *)

(** The processes of a cluster, by address: each has its own view of the
    cluster, its own identity and its own store. *)
Record Process := mkProcess {
  pClust : Cluster;
  pSelf : string;
  pCache : Cache;
}.

Abbreviation Network := (gmap string Process).

(** A [POST /set] arriving at the process at [addr]. *)
Definition postSet (net : Network) (replicaCount : Z) (addr : string)
    (req : SetRequest) (tReq tSet : Z)
    : Network * option (Outcome SetRequest) :=
  match net !! addr with
  | None => (net, None)   (* nobody listens: the sender sees an error *)
  | Some p =>
      let out :=
        handleSet (pClust p) (pSelf p) replicaCount (pCache p) (Some req)
          tReq tSet in
      (<[addr := mkProcess (pClust p) (pSelf p) (store out)]> net, Some out)
  end.

(** Deliver the forwards of one handler run, in order; the forwards the
    receivers send in turn are collected. *)
Definition fanOut (net : Network) (replicaCount : Z)
    (fw : list (Node * SetRequest)) (tReq tSet : Z)
    : Network * list (Node * SetRequest) :=
  foldl (fun (st : Network * list (Node * SetRequest)) m =>
           let r := postSet st.1 replicaCount (Addr m.1) m.2 tReq tSet in
           (r.1, st.2 ++ default [] (sent <$> r.2)))
        (net, []) fw.

(** A client write to the process at [addr], followed by the delivery of
    everything that process forwarded. *)
Definition clientSet (net : Network) (replicaCount : Z) (addr : string)
    (req : SetRequest) (tReq tSet : Z)
    : Network * option Response * list (Node * SetRequest) :=
  let r := postSet net replicaCount addr req tReq tSet in
  match r.2 with
  | None => (r.1, None, [])
  | Some out =>
      let f := fanOut r.1 replicaCount (sent out) tReq tSet in
      (f.1, Some (reply out), f.2)
  end.

(** The entry a process holds for a key. *)
Definition held (net : Network) (addr key : string) : option CacheItem :=
  p ← net !! addr; pCache p !! key.

(** The cluster of [Docker/docker-compose.yml], as [main] builds it on the
    node [selfID] (100 points per node, health monitor started). *)
Definition composeNodes : list string :=
  ["node1:8081"; "node2:8082"; "node3:8083"].

Definition composeCluster (selfID : string) : Cluster :=
  StartHealthMonitor (NewCluster selfID composeNodes 100).

(** The view of the cluster on [selfID] after one turn of the monitor in
    which every peer answered its heartbeat. *)
Definition composeView (selfID : string) : Cluster :=
  probeRound (composeCluster selfID) selfID (fun _ => true).

(** The three processes of the compose file, all up, with empty stores. *)
Definition composeNet : Network :=
  list_to_map
    ((fun id => (id, mkProcess (composeView id) id NewCache))
       <$> composeNodes).

(** A process serving requests one after another; the view of the cluster
    each request meets comes with it. *)
Definition serveAll (selfID : string) (replicaCount : Z) (cache : Cache)
    (rs : list (Cluster * Request)) : Cache :=
  foldl (fun c r => serve r.1 selfID replicaCount c r.2) cache rs.

(** The request with its TTL replaced. *)
Definition withTTL (req : SetRequest) (ttl : Z) : SetRequest :=
  mkSet (Key req) (ReqValue req) ttl (ReqLastUpdated req).

(** The tracker was never created, or its map holds [true] for the node. *)
Definition known_healthy (clust : Cluster) (node : Node) : Prop :=
  Health clust = None
  ∨ ∃ tr, Health clust = Some tr ∧ status tr !! ID node = Some true.

(** ** Vocabulary for the further properties *)

(** The key a store operation works on. *)
Definition op_key (op : StoreOp) : string :=
  match op with
  | OpSet key _ _ _ _ => key
  | OpGet key _ => key
  | OpDelete key => key
  end.

(** The key a request names, when it names one. *)
Definition requestKey (r : Request) : option string :=
  match r with
  | PostSet body _ _ => Key <$> body
  | GetKey key _ _ => Some key
  | DeleteKey key _ => Some key
  end.

(** A verdict of [http.NewRequest] for the examples: like [net/url] it
    refuses a URL that holds an ASCII control byte ([b < ' ' || b == 0x7f]).
    The library has other grounds for refusing a URL, which the examples
    do not need. *)
Definition noCTLByte (url : string) : bool :=
  forallb (fun b => negb ((b <? 32)%nat || (b =? 127)%nat))
    (Ascii.nat_of_ascii <$> String.list_ascii_of_string url).

(** A key with a control byte in it: [ctl\x01-0]. *)
Definition ctlKey : string :=
  "ctl" +:+ String (Ascii.ascii_of_nat 1) "-0".

(** What the ring keeps true: the points are sorted and every hash the map
    knows is one of the points. *)
Definition ring_wf (h : HashRing) : Prop :=
  Sorted Z.le (nodes h) ∧ ∀ x, is_Some (nodeMap h !! x) → x ∈ nodes h.

(** A healthy replica that gives [handleGet] nothing: the node itself
    without a live entry, or a peer whose reply is not a 200. *)
Definition misses (selfID : string) (cache : Cache) (key : string) (now : Z)
    (peer : Node → option string) (node : Node) : Prop :=
  if decide (ID node = selfID) then (Cache_Get cache key now).2 = None
  else peer node = None.

(** Deliver forwarded writes in order, each receiver reading its own
    clock: [clock node] is the pair of readings the handler on [node]
    takes. *)
Definition deliverAll (net : Network) (replicaCount : Z)
    (fw : list (Node * SetRequest)) (clock : Node → Z * Z)
    : Network * list (Node * SetRequest) :=
  foldl (fun (st : Network * list (Node * SetRequest)) m =>
           let r :=
             postSet st.1 replicaCount (Addr m.1) m.2
               (clock m.1).1 (clock m.1).2 in
           (r.1, st.2 ++ default [] (sent <$> r.2)))
        (net, []) fw.

(** A client write to the process at [addr] and the delivery of what it
    forwarded, with a clock of its own on every receiver. *)
Definition clientSetAt (net : Network) (replicaCount : Z) (addr : string)
    (req : SetRequest) (tReq tSet : Z) (clock : Node → Z * Z)
    : Network * option Response * list (Node * SetRequest) :=
  let r := postSet net replicaCount addr req tReq tSet in
  match r.2 with
  | None => (r.1, None, [])
  | Some out =>
      let f := deliverAll r.1 replicaCount (sent out) clock in
      (f.1, Some (reply out), f.2)
  end.

(** A replica that is up and will take a write stamped [ts] for [key]: a
    process listens at its address under its ID, with the node table and
    ring of [clust], at least one replica healthy in its own view, and no
    entry for the key newer than [ts]. *)
Definition ready (clust : Cluster) (replicaCount : Z) (key : string) (ts : Z)
    (net : Network) (n : Node) : Prop :=
  ∃ p, net !! Addr n = Some p
       ∧ pSelf p = ID n
       ∧ Nodes (pClust p) = Nodes clust
       ∧ Ring (pClust p) = Ring clust
       ∧ (replicaLoop (pClust p) (ID n)
            (GetResponsibleNodes clust key replicaCount)).1 ≠ []
       ∧ ∀ e, pCache p !! key = Some e → LastUpdated e ≤ ts.

(** A small cluster for examples: the three nodes of the compose file with
    four points each, every node healthy in every view, empty stores. *)
Definition miniView (selfID : string) : Cluster :=
  probeRound (StartHealthMonitor (NewCluster selfID composeNodes 4)) selfID
    (fun _ => true).

Definition miniNet : Network :=
  list_to_map
    ((fun id => (id, mkProcess (miniView id) id NewCache)) <$> composeNodes).

(** ** Metrics ([pkg/monitoring/metrics.go]) *)

(** The two counter vectors, by label.  A Prometheus counter holds a
    [float64]; counting by one it is exact far beyond any number of
    requests a process serves, and is kept as a natural number here.  The
    latency histogram is left out. *)
Record Metrics := mkMetrics {
  RequestCount : gmap string nat;
  ErrorCount : gmap string nat;
}.

Definition NewMetrics : Metrics := mkMetrics ∅ ∅.

(** The value of the counter with a label; a counter never touched is 0. *)
Definition counter (v : gmap string nat) (label : string) : nat :=
  default 0%nat (v !! label).

(** [v.WithLabelValues(label).Inc()]. *)
Definition Inc (v : gmap string nat) (label : string) : gmap string nat :=
  <[label := S (counter v label)]> v.

(** [InstrumentHandler]: [written] is the code the wrapped handler passed
    to [WriteHeader], if it called it; the recorded status starts at
    200. *)
Definition InstrumentHandler (method : string) (written : option Z)
    (ms : Metrics) : Metrics :=
  let status := default 200 written in
  mkMetrics (Inc (RequestCount ms) method)
    (if 400 <=? status then Inc (ErrorCount ms) method else ErrorCount ms).

(** The process as [main] wires it: requests go through the instrumented
    handlers, labelled "set", "get" and "delete". *)
Definition methodOf (r : Request) : string :=
  match r with
  | PostSet _ _ _ => "set"
  | GetKey _ _ _ => "get"
  | DeleteKey _ _ => "delete"
  end.

(** The code a handler passes to [WriteHeader] while serving a request;
    [handleGet] answering from the local store writes the body without
    calling it, and [handleDelete] panics before it gets there, which
    also skips what [InstrumentHandler] does after the handler. *)
Definition writtenStatus (clust : Cluster) (selfID : string)
    (replicaCount : Z) (cache : Cache) (r : Request) : option Z :=
  match r with
  | PostSet body tReq tSet =>
      Some (StatusCode
              (reply (handleSet clust selfID replicaCount cache body
                        tReq tSet)))
  | GetKey key now peer =>
      match (handleGet clust selfID replicaCount cache key now peer).1 with
      | GetError resp => Some (StatusCode resp)
      | GetLocal _ _ _ => None
      | GetPeer _ => Some StatusOK
      end
  | DeleteKey key NewRequest =>
      StatusCode
        <$> runReply (handleDelete NewRequest clust selfID replicaCount cache
                        key)
  end.

(** One instrumented request: the store and the metrics afterwards. *)
Definition serveCounted (selfID : string) (replicaCount : Z)
    (st : Cache * Metrics) (r : Cluster * Request) : Cache * Metrics :=
  (serve r.1 selfID replicaCount st.1 r.2,
   InstrumentHandler (methodOf r.2)
     (writtenStatus r.1 selfID replicaCount st.1 r.2) st.2).

(** Whether serving the request ends in an error status. *)
Definition failed (selfID : string) (replicaCount : Z) (cache : Cache)
    (r : Cluster * Request) : bool :=
  400 <=? default 200 (writtenStatus r.1 selfID replicaCount cache r.2).

(** The requests of a run that carry a label, and those of them that
    failed, each met with the store the run had reached. *)
Fixpoint tally (selfID : string) (replicaCount : Z) (label : string)
    (cache : Cache) (rs : list (Cluster * Request)) : nat * nat :=
  match rs with
  | [] => (0%nat, 0%nat)
  | r :: rest =>
      let t :=
        tally selfID replicaCount label
          (serve r.1 selfID replicaCount cache r.2) rest in
      if decide (methodOf r.2 = label) then
        (S t.1, if failed selfID replicaCount cache r then S t.2 else t.2)
      else t
  end.

(** ** Start-up ([main.go], lines 250-299) *)

(** [bytes.Split(s, sep)] for a separator of one byte: the pieces between
    the separators, one more than there are separators. *)
Fixpoint splitOn (sep : Ascii.ascii) (s : string) : list string :=
  match s with
  | EmptyString => [EmptyString]
  | String ch rest =>
      if Ascii.eqb ch sep then EmptyString :: splitOn sep rest
      else
        match splitOn sep rest with
        | [] => [String ch EmptyString]
        | piece :: pieces => String ch piece :: pieces
        end
  end.

Definition comma : Ascii.ascii := Ascii.ascii_of_nat 44.

(** [splitAndTrim]; [TrimSpace] stands for [bytes.TrimSpace]. *)
Definition splitAndTrim (TrimSpace : string → string) (s : string)
    : list string :=
  TrimSpace <$> splitOn comma s.

(** The number of separators in a string. *)
Fixpoint countSep (sep : Ascii.ascii) (s : string) : nat :=
  match s with
  | EmptyString => 0%nat
  | String ch rest =>
      if Ascii.eqb ch sep then S (countSep sep rest) else countSep sep rest
  end.

(** The pieces joined again with the separator between them. *)
Fixpoint joinWith (sep : Ascii.ascii) (pieces : list string) : string :=
  match pieces with
  | [] => EmptyString
  | [piece] => piece
  | piece :: rest => piece +:+ String sep (joinWith sep rest)
  end.

(** What [main] reads from the environment.  [Getenv] is [os.Getenv]
    (the empty string for an unset variable) and [Atoi] is [strconv.Atoi]
    ([None] when it returns an error). *)
Record Config := mkConfig {
  cfgPort : string;
  cfgSelfID : string;
  cfgNodeAddrs : list string;
  cfgReplicaCount : Z;
}.

Definition loadConfig (Getenv : string → string) (Atoi : string → option Z)
    (TrimSpace : string → string) : Config :=
  let port :=
    if decide (Getenv "PORT" = "") then "8080" else Getenv "PORT" in
  let selfID :=
    if decide (Getenv "NODE_ID" = "") then "localhost:" +:+ port
    else Getenv "NODE_ID" in
  let nodeAddrs :=
    if decide (Getenv "NODES" = "") then [selfID]
    else splitAndTrim TrimSpace (Getenv "NODES") in
  let replicaCount :=
    if decide (Getenv "REPLICA_COUNT" = "") then 2
    else
      match Atoi (Getenv "REPLICA_COUNT") with
      | Some rc => if 0 <? rc then rc else 2
      | None => 2
      end in
  mkConfig port selfID nodeAddrs replicaCount.

(** The cluster [main] builds from its configuration. *)
Definition mainCluster (cfg : Config) : Cluster :=
  StartHealthMonitor (NewCluster (cfgSelfID cfg) (cfgNodeAddrs cfg) 100).

(** * Properties *)

(** ** The digest *)

Section digest.

(** The test vectors of FIPS 180: the empty message, "abc", and a message
    of two blocks. *)
Example sha1_empty :
  SHA1.sum (SHA1.bytes_of_string "")
  = [218; 57; 163; 238; 94; 107; 75; 13; 50; 85; 191; 239; 149; 96; 24;
     144; 175; 216; 7; 9].
Proof. vm_compute. reflexivity. Qed.

Example sha1_abc :
  SHA1.sum (SHA1.bytes_of_string "abc")
  = [169; 153; 62; 54; 71; 6; 129; 106; 186; 62; 37; 113; 120; 80; 194;
     108; 156; 208; 216; 157].
Proof. vm_compute. reflexivity. Qed.

Example sha1_two_blocks :
  SHA1.sum (SHA1.bytes_of_string
              "abcdbcdecdefdefgefghfghighijhijkijkljklmklmnlmnomnopnopq")
  = [132; 152; 62; 68; 28; 59; 210; 110; 186; 174; 74; 161; 249; 81; 41;
     229; 229; 70; 112; 241].
Proof. vm_compute. reflexivity. Qed.

(** [hashKey] reads bytes 16 to 19 of the digest, big-endian. *)
Example hashKey_abc : hashKey "abc" = 2630932637.
Proof. vm_compute. reflexivity. Qed.

Example pointName_example : pointName "node1:8081" 42 = "node1:8081#42".
Proof. vm_compute. reflexivity. Qed.

End digest.

(** ** The entry store *)

Section store.
Implicit Types (c : Cache) (key : string) (w : Write).

Lemma Cache_Set_absent c key v ttl ts now :
  c !! key = None →
  Cache_Set c key v ttl ts now
  = (<[key := mkItem v (expiry ttl now) ts]> c, true).
Proof. intros H. unfold Cache_Set. by rewrite H. Qed.

Lemma Cache_Set_fresh c key v ttl ts now e :
  c !! key = Some e → LastUpdated e ≤ ts →
  Cache_Set c key v ttl ts now
  = (<[key := mkItem v (expiry ttl now) ts]> c, true).
Proof.
  intros H Hle. unfold Cache_Set. rewrite H.
  destruct (Z.leb_spec (LastUpdated e) ts); [done | lia].
Qed.

Lemma Cache_Set_stale c key v ttl ts now e :
  c !! key = Some e → ts < LastUpdated e →
  Cache_Set c key v ttl ts now = (c, false).
Proof.
  intros H Hlt. unfold Cache_Set. rewrite H.
  destruct (Z.leb_spec (LastUpdated e) ts); [lia | done].
Qed.

Lemma Cache_Set_other c key v ttl ts now key' :
  key ≠ key' → (Cache_Set c key v ttl ts now).1 !! key' = c !! key'.
Proof.
  intros Hne. unfold Cache_Set.
  destruct (c !! key) as [e|]; [destruct (_ <=? _)|]; simpl;
    by rewrite ?lookup_insert_ne.
Qed.

Lemma apply_write_fresh c key w e :
  c !! key = Some e → LastUpdated e ≤ wStamp w →
  apply_write key c w !! key = Some (write_item w).
Proof.
  intros H Hle. unfold apply_write.
  rewrite (Cache_Set_fresh _ _ _ _ _ _ e) by done.
  apply lookup_insert_eq.
Qed.

Lemma apply_write_stale c key w e :
  c !! key = Some e → wStamp w < LastUpdated e →
  apply_write key c w = c.
Proof.
  intros H Hlt. unfold apply_write.
  by rewrite (Cache_Set_stale _ _ _ _ _ _ e).
Qed.

(** From a resident entry [e], a run of writes either leaves [e] (all of
    them were older) or ends on the last of the writes with the largest
    timestamp. *)
Lemma writes_from_resident key ws : ∀ c e,
  c !! key = Some e →
  (foldl (apply_write key) c ws !! key = Some e
   ∧ Forall (fun p => wStamp p < LastUpdated e) ws)
  ∨ ∃ pre w post,
      ws = pre ++ w :: post
      ∧ LastUpdated e ≤ wStamp w
      ∧ Forall (fun p => wStamp p ≤ wStamp w) pre
      ∧ Forall (fun p => wStamp p < wStamp w) post
      ∧ foldl (apply_write key) c ws !! key = Some (write_item w).
Proof.
  induction ws as [|w0 ws IH]; intros c e Hc; cbn [foldl].
  { left. by split. }
  destruct (Z.le_gt_cases (LastUpdated e) (wStamp w0)) as [Hle|Hgt].
  - pose proof (apply_write_fresh c key w0 e Hc Hle) as H1.
    destruct (IH _ _ H1) as [[Hr Hall]|(pre & w & post & -> & Hw & Hpre & Hpost & Hr)].
    + right. exists [], w0, ws.
      split_and!; [done | done | constructor | exact Hall | done].
    + right. exists (w0 :: pre), w, post. cbn [write_item LastUpdated] in Hw.
      split_and!; [done | lia | constructor; [lia | done] | done | done].
  - rewrite (apply_write_stale c key w0 e Hc Hgt).
    destruct (IH _ _ Hc) as [[Hr Hall]|(pre & w & post & -> & Hw & Hpre & Hpost & Hr)].
    + left. split; [done|]. constructor; [lia | done].
    + right. exists (w0 :: pre), w, post.
      split_and!; [done | done | constructor; [lia | done] | done | done].
Qed.

(** C2. [Cache.Set] stores and returns [true] when the key has no resident
    entry or when the incoming timestamp is at least the resident one, and
    otherwise returns [false] and leaves the store as it is.  Hence a
    non-empty run of writes to one key that starts without an entry ends
    on the write [w] that carries the largest timestamp, and among equal
    timestamps on the last to arrive: every earlier write is at most as
    recent, every later one strictly older. *)
Theorem Cache_Set_last_writer_wins c key (ws : list Write) :
  c !! key = None → ws ≠ [] →
  (∀ c' v ttl ts now,
      (c' !! key = None →
       Cache_Set c' key v ttl ts now
       = (<[key := mkItem v (expiry ttl now) ts]> c', true))
      ∧ (∀ e, c' !! key = Some e →
           (LastUpdated e ≤ ts →
            Cache_Set c' key v ttl ts now
            = (<[key := mkItem v (expiry ttl now) ts]> c', true))
           ∧ (ts < LastUpdated e →
              Cache_Set c' key v ttl ts now = (c', false))))
  ∧ ∃ pre w post,
      ws = pre ++ w :: post
      ∧ Forall (fun p => wStamp p ≤ wStamp w) pre
      ∧ Forall (fun p => wStamp p < wStamp w) post
      ∧ (∀ p, p ∈ ws → wStamp p ≤ wStamp w)
      ∧ foldl (apply_write key) c ws !! key = Some (write_item w).
Proof.
  intros Hc Hne. split.
  { intros c' v ttl ts now. split.
    - apply Cache_Set_absent.
    - intros e He. split.
      + by apply Cache_Set_fresh.
      + by apply Cache_Set_stale. }
  assert (∃ pre w post,
            ws = pre ++ w :: post
            ∧ Forall (fun p => wStamp p ≤ wStamp w) pre
            ∧ Forall (fun p => wStamp p < wStamp w) post
            ∧ foldl (apply_write key) c ws !! key = Some (write_item w))
    as (pre & w & post & Hws & Hpre & Hpost & Hend).
  { destruct ws as [|w0 ws]; [done|]. cbn [foldl].
    assert (apply_write key c w0 !! key = Some (write_item w0)) as H1.
    { unfold apply_write. rewrite Cache_Set_absent by done.
      apply lookup_insert_eq. }
    destruct (writes_from_resident key ws _ _ H1)
      as [[Hr Hall]|(pre & w & post & -> & Hw & Hpre & Hpost & Hr)].
    - exists [], w0, ws.
      split_and!; [done | constructor | exact Hall | done].
    - exists (w0 :: pre), w, post. cbn [write_item LastUpdated] in Hw.
      split_and!; [done | constructor; [lia | done] | done | done]. }
  exists pre, w, post. split_and!; try done.
  intros p Hp. rewrite Hws in Hp.
  apply elem_of_app in Hp as [Hp|Hp].
  - by apply (proj1 (Forall_forall _ _) Hpre).
  - apply elem_of_cons in Hp as [->|Hp]; [lia|].
    pose proof (proj1 (Forall_forall _ _) Hpost p Hp). simpl in *. lia.
Qed.

Lemma Cache_Set_last_writer_wins_witness :
  ∃ pre w post,
    [mkWrite "new" 0 100 0; mkWrite "tie" 0 100 0; mkWrite "old" 0 50 0]
    = pre ++ w :: post
    ∧ Forall (fun p => wStamp p ≤ wStamp w) pre
    ∧ Forall (fun p => wStamp p < wStamp w) post
    ∧ (∀ p,
         p ∈ [mkWrite "new" 0 100 0; mkWrite "tie" 0 100 0;
              mkWrite "old" 0 50 0] →
         wStamp p ≤ wStamp w)
    ∧ foldl (apply_write "a") NewCache
        [mkWrite "new" 0 100 0; mkWrite "tie" 0 100 0; mkWrite "old" 0 50 0]
        !! "a" = Some (write_item w).
Proof.
  apply (Cache_Set_last_writer_wins NewCache "a"
           [mkWrite "new" 0 100 0; mkWrite "tie" 0 100 0;
            mkWrite "old" 0 50 0]);
    [reflexivity | discriminate].
Defined.

(** The same run, evaluated: the tie at timestamp 100 goes to the later
    write and the older write is turned away. *)
Example last_writer_wins_run :
  foldl (apply_write "a") NewCache
    [mkWrite "new" 0 100 0; mkWrite "tie" 0 100 0; mkWrite "old" 0 50 0]
    !! "a" = Some (mkItem "tie" 0 100).
Proof. vm_compute. reflexivity. Qed.

(** *** Replays *)

Lemma replay_rejected key v ttl ts nows : ∀ c e,
  c !! key = Some e → ts < LastUpdated e →
  replay c key v ttl ts nows = (c, replicate (length nows) false).
Proof.
  induction nows as [|t nows IH]; intros c e Hc Hlt; [done|].
  cbn [replay length replicate].
  rewrite (Cache_Set_stale _ _ _ _ _ _ e) by done.
  cbn [fst snd]. by rewrite (IH c e).
Qed.

(** From a resident entry with the same value and timestamp, every
    re-delivery is stored; the entry ends with the expiration computed at
    the last of them. *)
Lemma replay_accepted key v ttl ts nows : ∀ c e,
  c !! key = Some e → Value e = v → LastUpdated e = ts →
  (replay c key v ttl ts nows).2 = replicate (length nows) true
  ∧ (∀ key', key' ≠ key →
       (replay c key v ttl ts nows).1 !! key' = c !! key')
  ∧ (replay c key v ttl ts nows).1 !! key
    = Some (mkItem v (default (Expiration e) (expiry ttl <$> last nows)) ts)
  ∧ (Forall (fun t => expiry ttl t = Expiration e) nows →
     (replay c key v ttl ts nows).1 = c).
Proof.
  induction nows as [|t nows IH]; intros c e Hc Hv Hts.
  { cbn [replay fst snd length replicate last fmap option_fmap option_map
           default].
    split_and!; [done | done | | done].
    rewrite Hc. destruct e; simpl in *; by subst. }
  cbn [replay length replicate].
  rewrite (Cache_Set_fresh _ _ _ _ _ _ e) by (done || lia).
  cbn [fst snd].
  set (c1 := <[key := mkItem v (expiry ttl t) ts]> c).
  assert (c1 !! key = Some (mkItem v (expiry ttl t) ts)) as H1
    by apply lookup_insert_eq.
  destruct (IH c1 _ H1 eq_refl eq_refl) as (Hres & Hoth & Hkey & Hsame).
  split_and!.
  - by rewrite Hres.
  - intros key' Hne. rewrite Hoth by done.
    unfold c1. by rewrite lookup_insert_ne.
  - rewrite Hkey. cbn [Expiration].
    destruct nows as [|t' nows']; [done|].
    rewrite last_cons_cons.
    destruct (last_is_Some (t' :: nows')) as [_ [x ->]]; done.
  - intros Hall. inversion Hall as [|? ? Ht Hrest]; subst.
    rewrite Hsame.
    + unfold c1. rewrite Ht. apply insert_id.
      rewrite Hc. by destruct e.
    + cbn [Expiration]. by rewrite Ht.
Qed.

Lemma expiry_no_ttl ttl now : ttl ≤ 0 → expiry ttl now = 0.
Proof.
  intros H. unfold expiry. destruct (Z.ltb_spec 0 ttl); [lia | done].
Qed.

(** C3 (amended).  Re-delivering a write with the same key, value and
    timestamp, any number of times at any clock readings, meets the
    outcome of the first delivery every time and leaves the value, the
    timestamp and all other keys as the first delivery left them.  The
    whole store is as after the first delivery when that delivery was
    turned away, when the TTL is not positive, or when every re-delivery
    computes the expiration the first one computed; after a stored
    delivery the entry carries the expiration computed at the last
    re-delivery. *)
Theorem replay_keeps_value_and_stamp c key v ttl ts now (nows : list Z) :
  let first := Cache_Set c key v ttl ts now in
  let final := replay first.1 key v ttl ts nows in
  final.2 = replicate (length nows) first.2
  ∧ (∀ key', key' ≠ key → final.1 !! key' = first.1 !! key')
  ∧ Value <$> final.1 !! key = Value <$> first.1 !! key
  ∧ LastUpdated <$> final.1 !! key = LastUpdated <$> first.1 !! key
  ∧ (first.2 = false → final.1 = first.1)
  ∧ (ttl ≤ 0 → final.1 = first.1)
  ∧ (Forall (fun t => expiry ttl t = expiry ttl now) nows →
     final.1 = first.1)
  ∧ (∀ t, first.2 = true → last nows = Some t →
       Expiration <$> final.1 !! key = Some (expiry ttl t)).
Proof.
  intros first final.
  assert (first.2 = true →
          first.1 !! key = Some (mkItem v (expiry ttl now) ts)) as Hstored.
  { unfold first, Cache_Set.
    destruct (c !! key) as [e|]; [destruct (_ <=? _)|]; cbn [fst snd];
      intros; try done; apply lookup_insert_eq. }
  assert (first.2 = false →
          ∃ e, first.1 !! key = Some e ∧ ts < LastUpdated e) as Hstale.
  { unfold first, Cache_Set.
    destruct (c !! key) as [e|] eqn:Hc;
      [destruct (Z.leb_spec (LastUpdated e) ts)|]; cbn [fst snd];
      intros; try done. eauto. }
  destruct (first.2) eqn:Hres.
  - specialize (Hstored eq_refl).
    destruct (replay_accepted key v ttl ts nows _ _ Hstored eq_refl eq_refl)
      as (Hrs & Hoth & Hkey & Hsame).
    fold final in Hrs, Hoth, Hkey, Hsame. cbn [Expiration] in *.
    split_and!; try done.
    + by rewrite Hkey, Hstored.
    + by rewrite Hkey, Hstored.
    + intros Httl. apply Hsame, Forall_forall. intros t _.
      by rewrite !expiry_no_ttl.
    + intros t _ Ht. rewrite Hkey, Ht. done.
  - destruct (Hstale eq_refl) as (e & He & Hlt).
    pose proof (replay_rejected key v ttl ts nows _ _ He Hlt) as Hr.
    fold final in Hr. rewrite Hr. cbn [fst snd].
    split_and!; done.
Qed.

(** C3 as stated fails: a write with a positive TTL, delivered again five
    seconds later, is stored again and moves the expiration, so the store
    is not the one a single delivery leaves. *)
Lemma replay_later_moves_expiration :
  let first := Cache_Set NewCache "k" "v" 10 100 (1000 * Second) in
  let again := replay first.1 "k" "v" 10 100 [1005 * Second] in
  first.2 = true
  ∧ again.2 = [true]
  ∧ first.1 !! "k" = Some (mkItem "v" 1010 100)
  ∧ again.1 !! "k" = Some (mkItem "v" 1015 100)
  ∧ again.1 ≠ first.1.
Proof.
  split_and!; try (vm_compute; reflexivity).
  intros H. apply (f_equal (fun m : Cache => m !! "k")) in H.
  vm_compute in H. discriminate H.
Qed.

(** *** Reads and expiry *)

Lemma Cache_Get_absent c key now :
  c !! key = None → Cache_Get c key now = (c, None).
Proof. intros H. unfold Cache_Get. by rewrite H. Qed.

Lemma Cache_Get_expired c key now e :
  c !! key = Some e → 0 < Expiration e → Expiration e < Unix now →
  Cache_Get c key now = (delete key c, None).
Proof.
  intros H H0 H1. unfold Cache_Get. rewrite H.
  destruct (Z.ltb_spec 0 (Expiration e)); [|lia].
  destruct (Z.ltb_spec (Expiration e) (Unix now)); [done | lia].
Qed.

Lemma Cache_Get_live c key now e :
  c !! key = Some e → Expiration e ≤ 0 ∨ Unix now ≤ Expiration e →
  Cache_Get c key now = (c, Some (Value e)).
Proof.
  intros H Hor. unfold Cache_Get. rewrite H.
  destruct (Z.ltb_spec 0 (Expiration e));
    destruct (Z.ltb_spec (Expiration e) (Unix now)); try done; lia.
Qed.

(** While [ttl · 10⁹] fits in an [int64] the expiration is the second of
    the write plus the TTL. *)
Lemma expiry_in_range ttl now :
  0 < ttl ≤ 9223372036 → expiry ttl now = Unix now + ttl.
Proof.
  intros [H0 H1]. unfold expiry, Unix, Add, wrap64, Second.
  destruct (Z.ltb_spec 0 ttl); [|lia].
  rewrite Z.mod_small by lia.
  replace (now + (ttl * 1000000000 + 9223372036854775808
                  - 9223372036854775808))
    with (now + ttl * 1000000000) by lia.
  by rewrite Z.div_add by lia.
Qed.

(** The TTL window for TTLs whose nanosecond count fits in an [int64] and
    a clock that is not before the epoch: a stored write is read back up
    to and including second [t0 + T], and the first read after it removes
    the entry. *)
Lemma ttl_window c key v ttl ts now c' :
  0 < ttl ≤ 9223372036 → 0 ≤ now →
  Cache_Set c key v ttl ts now = (c', true) →
  ∀ t,
    (Unix t ≤ Unix now + ttl → Cache_Get c' key t = (c', Some v))
    ∧ (Unix now + ttl < Unix t → Cache_Get c' key t = (delete key c', None)).
Proof.
  intros Httl Hnow Hset t.
  assert (c' !! key = Some (mkItem v (Unix now + ttl) ts)) as Hc'.
  { unfold Cache_Set in Hset. rewrite expiry_in_range in Hset by done.
    destruct (c !! key) as [e|]; [destruct (_ <=? _)|];
      inversion Hset; subst; apply lookup_insert_eq. }
  assert (0 ≤ Unix now) by (unfold Unix, Second; by apply Z.div_pos).
  split; intros Ht.
  - rewrite (Cache_Get_live _ _ _ _ Hc'); [done|]. right. done.
  - apply (Cache_Get_expired _ _ _ _ Hc'); cbn [Expiration]; lia.
Qed.

(** Where the code keeps the expiry window.  [Cache.Get] reports a key
    without entry absent; when the entry has a positive expiration that
    the clock's Unix second has passed it deletes the entry and reports
    it absent, and otherwise it reports the value.  After a put with TTL
    [T] that was stored at second [t0], where [T·10⁹] nanoseconds fit in
    an [int64] ([0 < T ≤ 9223372036]) and the clock is not before the
    epoch, a get at any second [t ≤ t0 + T] returns the value and a get at
    any second [t > t0 + T] reports absent and removes the entry. *)
Theorem Cache_Get_expiry_window c key v T ts t0 c' :
  0 < T ≤ 9223372036 → 0 ≤ t0 →
  Cache_Set c key v T ts t0 = (c', true) →
  (∀ (c0 : Cache) now,
     (c0 !! key = None → Cache_Get c0 key now = (c0, None))
     ∧ ∀ e, c0 !! key = Some e →
         (0 < Expiration e → Expiration e < Unix now →
          Cache_Get c0 key now = (delete key c0, None))
         ∧ (Expiration e ≤ 0 ∨ Unix now ≤ Expiration e →
            Cache_Get c0 key now = (c0, Some (Value e))))
  ∧ ∀ t,
      (Unix t ≤ Unix t0 + T → Cache_Get c' key t = (c', Some v))
      ∧ (Unix t0 + T < Unix t →
         Cache_Get c' key t = (delete key c', None)
         ∧ delete key c' !! key = None).
Proof.
  intros HT Ht0 Hset. split.
  - intros c0 now. split; [apply Cache_Get_absent|].
    intros e He. split.
    + by apply Cache_Get_expired.
    + by apply Cache_Get_live.
  - intros t. destruct (ttl_window c key v T ts t0 c' HT Ht0 Hset t)
      as [Hlive Hdead].
    split; [done|]. intros Hlt. split; [by apply Hdead|].
    apply lookup_delete_eq.
Qed.

Lemma Cache_Get_expiry_window_witness :
  Cache_Get {["b" := mkItem "x" 1001 7]} "b" (1001 * Second)
  = ({["b" := mkItem "x" 1001 7]}, Some "x").
Proof.
  refine (proj1 (proj2 (Cache_Get_expiry_window NewCache "b" "x" 1 7
                          (1000 * Second) {["b" := mkItem "x" 1001 7]}
                          _ _ _) (1001 * Second)) _).
  - lia.
  - vm_compute. discriminate.
  - vm_compute. reflexivity.
  - vm_compute. discriminate.
Defined.

(** C5.  The code does not keep the expiry window the claim states when
    the TTL is large.  [Cache.Set] computes the expiration as
    [now + time.Duration(ttl) * time.Second] and nothing guards the
    product: for [ttl = 18446744074], stored at second 1000, [ttl · 10⁹]
    does not fit in an [int64] and wraps to 290448384 ns, so the stored
    expiration is second 1000.  A read at second 1002, long before
    [t0 + T], finds the entry expired, removes it and reports it absent
    instead of returning the value. *)
Lemma ttl_overflow_expires_early :
  let t0 := 1000 * Second in
  let T := 18446744074 in
  let put := Cache_Set NewCache "b" "x" T 1 t0 in
  0 < T
  ∧ put.2 = true
  ∧ wrap64 (T * Second) = 290448384
  ∧ put.1 !! "b" = Some (mkItem "x" 1000 1)
  ∧ Unix (1002 * Second) ≤ Unix t0 + T
  ∧ Cache_Get put.1 "b" (1002 * Second) = (NewCache, None)
  ∧ Cache_Get put.1 "b" (1002 * Second) ≠ (put.1, Some "x").
Proof. split_and!; vm_compute; done. Qed.

(** *** Timestamps of one key over a history *)

Lemma store_step_stamp c key op e e1 :
  c !! key = Some e → store_step c op !! key = Some e1 →
  LastUpdated e ≤ LastUpdated e1.
Proof.
  intros Hc. destruct op as [k v ttl ts now|k now|k]; cbn [store_step].
  - destruct (decide (k = key)) as [->|Hne].
    + unfold Cache_Set. rewrite Hc.
      destruct (Z.leb_spec (LastUpdated e) ts); cbn [fst].
      * rewrite lookup_insert_eq. intros [= <-]. done.
      * rewrite Hc. intros [= <-]. done.
    + rewrite Cache_Set_other by done. rewrite Hc. intros [= <-]. done.
  - unfold Cache_Get.
    destruct (c !! k) as [item|] eqn:Hk;
      [destruct (_ && _)|]; cbn [fst]; rewrite ?Hc;
      try (intros [= <-]; done).
    destruct (decide (k = key)) as [->|Hne].
    + by rewrite lookup_delete_eq.
    + rewrite lookup_delete_ne by done. rewrite Hc. intros [= <-]. done.
  - unfold Cache_Delete. destruct (decide (k = key)) as [->|Hne].
    + by rewrite lookup_delete_eq.
    + rewrite lookup_delete_ne by done. rewrite Hc. intros [= <-]. done.
Qed.

(** C6 (amended).  Over any history of puts, gets and deletes during which
    the key stays resident (no delete of it, no read that expires it), the
    resident timestamp never goes down: the entry at the end is at least
    as recent as the entry at the start. *)
Theorem LastUpdated_monotone_while_resident c key (ops : list StoreOp)
    e e' :
  c !! key = Some e →
  resident_throughout key c ops →
  store_run c ops !! key = Some e' →
  LastUpdated e ≤ LastUpdated e'.
Proof.
  unfold store_run. revert c e.
  induction ops as [|op ops IH]; intros c e Hc Hres Hend.
  { cbn [foldl] in Hend. rewrite Hc in Hend. by injection Hend as <-. }
  cbn [foldl] in Hend. destruct Hres as [[e1 H1] Hres].
  pose proof (store_step_stamp c key op e e1 Hc H1).
  pose proof (IH _ _ H1 Hres Hend). lia.
Qed.

Lemma LastUpdated_monotone_while_resident_witness :
  LastUpdated (mkItem "v" 0 100) ≤ LastUpdated (mkItem "w" 0 150).
Proof.
  apply (LastUpdated_monotone_while_resident
           {["k" := mkItem "v" 0 100]} "k"
           [OpSet "k" "old" 0 50 0; OpGet "k" 7; OpSet "k" "w" 0 150 0;
            OpDelete "other"]).
  - reflexivity.
  - repeat split; eexists; vm_compute; reflexivity.
  - vm_compute. reflexivity.
Defined.

(** C6 as stated fails: a delete forgets the timestamp, so a later put of
    an older write is stored and the key goes from timestamp 100 to 50. *)
Lemma delete_forgets_timestamp :
  let ops1 := [OpSet "k" "new" 0 100 0] in
  let ops2 := [OpDelete "k"; OpSet "k" "old" 0 50 0] in
  ∃ e e',
    store_run NewCache ops1 !! "k" = Some e
    ∧ store_run NewCache (ops1 ++ ops2) !! "k" = Some e'
    ∧ LastUpdated e = 100
    ∧ LastUpdated e' = 50
    ∧ ¬ (LastUpdated e ≤ LastUpdated e').
Proof.
  exists (mkItem "new" 0 100), (mkItem "old" 0 50).
  split_and!; [vm_compute; done | vm_compute; done | done | done |].
  cbn [LastUpdated]. lia.
Qed.

End store.

(** ** The hash ring *)

Section ring.
Implicit Types (h : HashRing) (l : list Z).

(** *** Sorting *)

Lemma sortInts_Sorted l : Sorted Z.le (sortInts l).
Proof. apply Sorted_merge_sort; apply _. Qed.

Lemma sortInts_Permutation l : sortInts l ≡ₚ l.
Proof. apply merge_sort_Permutation. Qed.

(** Whatever algorithm [sort.Ints] runs, it returns this list. *)
Lemma sortInts_unique l l' : Sorted Z.le l' → l' ≡ₚ l → l' = sortInts l.
Proof.
  intros Hs Hp. apply (Sorted_unique Z.le); [done | apply sortInts_Sorted |].
  by rewrite Hp, sortInts_Permutation.
Qed.

Lemma sorted_lookup l : StronglySorted Z.le l →
  ∀ i j x y, l !! i = Some x → l !! j = Some y → (i ≤ j)%nat → x ≤ y.
Proof.
  induction 1 as [|a l Hl IH Hall]; intros i j x y Hi Hj Hij; [done|].
  destruct i as [|i], j as [|j]; simplify_eq/=; try lia.
  - eapply (proj1 (Forall_lookup _ _) Hall); eauto.
  - eapply IH; eauto. lia.
Qed.

Lemma pointAt_lookup h a :
  0 ≤ a < len h → nodes h !! Z.to_nat a = Some (pointAt h a).
Proof.
  intros Ha. unfold pointAt. apply list_lookup_lookup_total_lt.
  unfold len in Ha. lia.
Qed.

Lemma pointAt_sorted h a b :
  Sorted Z.le (nodes h) → 0 ≤ a → a ≤ b → b < len h →
  pointAt h a ≤ pointAt h b.
Proof.
  intros Hs Ha Hab Hb.
  eapply (sorted_lookup (nodes h)).
  - by apply Sorted_StronglySorted; [apply _|].
  - apply pointAt_lookup. lia.
  - apply pointAt_lookup. lia.
  - lia.
Qed.

(** *** The binary search *)

Lemma searchLoop_spec (f : Z → bool) (n : Z) :
  (∀ a b, 0 ≤ a → a ≤ b → b < n → f a = true → f b = true) →
  ∀ fuel i j,
    0 ≤ i → i ≤ j → j ≤ n → j - i ≤ Z.of_nat fuel →
    (∀ a, 0 ≤ a < i → f a = false) →
    (∀ a, j ≤ a < n → f a = true) →
    i ≤ searchLoop fuel f i j ≤ j
    ∧ (∀ a, 0 ≤ a < searchLoop fuel f i j → f a = false)
    ∧ (∀ a, searchLoop fuel f i j ≤ a < n → f a = true).
Proof.
  intros Hmono. induction fuel as [|fuel IH]; intros i j Hi Hij Hj Hfuel Hlo Hhi.
  { cbn [searchLoop]. assert (i = j) as -> by lia. split_and!; [lia..|done|done]. }
  cbn [searchLoop]. destruct (Z.ltb_spec i j) as [Hlt|Hge].
  - pose proof (Z.div_mod (i + j) 2 ltac:(lia)) as Hdm.
    pose proof (Z.mod_pos_bound (i + j) 2 ltac:(lia)) as Hmb.
    set (m := (i + j) / 2) in *.
    destruct (f m) eqn:Hfm; cbn [negb].
    + destruct (IH i m) as (Hr & Hlo' & Hhi'); try lia; try done.
      { intros a Ha. apply (Hmono m a); [lia..|done]. }
      split_and!; [lia | lia | done | done].
    + destruct (IH (m + 1) j) as (Hr & Hlo' & Hhi'); try lia; try done.
      { intros a Ha. destruct (f a) eqn:Hfa; [|done].
        rewrite (Hmono a m) in Hfm; [done | lia..|done]. }
      split_and!; [lia | lia | done | done].
  - assert (i = j) as -> by lia. split_and!; [lia..|done|done].
Qed.

(** The search always lands inside [0, n], sorted or not. *)
Lemma searchLoop_range (f : Z → bool) : ∀ fuel i j,
  i ≤ j → i ≤ searchLoop fuel f i j ≤ j.
Proof.
  induction fuel as [|fuel IH]; intros i j Hij; cbn [searchLoop]; [lia|].
  destruct (Z.ltb_spec i j) as [Hlt|Hge]; [|lia].
  pose proof (Z.div_mod (i + j) 2 ltac:(lia)) as Hdm.
  pose proof (Z.mod_pos_bound (i + j) 2 ltac:(lia)) as Hmb.
  destruct (f ((i + j) / 2)); cbn [negb].
  - pose proof (IH i ((i + j) / 2) ltac:(lia)). lia.
  - pose proof (IH ((i + j) / 2 + 1) j ltac:(lia)). lia.
Qed.

Lemma startIndex_range h hash :
  nodes h ≠ [] → 0 ≤ startIndex h hash < len h.
Proof.
  intros Hne. unfold startIndex, Search.
  assert (0 < len h) by (unfold len; destruct (nodes h); simpl; [done | lia]).
  pose proof (searchLoop_range (fun i => hash <=? pointAt h i)
                (Z.to_nat (len h)) 0 (len h) ltac:(lia)) as Hr.
  destruct (Z.eqb_spec (searchLoop (Z.to_nat (len h))
                          (fun i => hash <=? pointAt h i) 0 (len h)) (len h));
    lia.
Qed.

(** On a sorted ring the start is the first point at or after the hash,
    or index 0 when every point is before it. *)
Lemma startIndex_spec h hash :
  Sorted Z.le (nodes h) → nodes h ≠ [] →
  (hash ≤ pointAt h (startIndex h hash)
   ∧ ∀ a, 0 ≤ a < startIndex h hash → pointAt h a < hash)
  ∨ (startIndex h hash = 0 ∧ ∀ a, 0 ≤ a < len h → pointAt h a < hash).
Proof.
  intros Hs Hne. unfold startIndex, Search.
  set (f := fun i => hash <=? pointAt h i).
  assert (0 ≤ len h) by (unfold len; lia).
  assert (∀ a b, 0 ≤ a → a ≤ b → b < len h → f a = true → f b = true)
    as Hmono.
  { intros a b Ha Hab Hb. unfold f. rewrite !Z.leb_le.
    pose proof (pointAt_sorted h a b Hs Ha Hab Hb). lia. }
  destruct (searchLoop_spec f (len h) Hmono (Z.to_nat (len h)) 0 (len h))
    as (Hr & Hlo & Hhi); [lia | lia | lia | lia | intros; lia | intros; lia |].
  set (r := searchLoop (Z.to_nat (len h)) f 0 (len h)) in *.
  assert (∀ a, 0 ≤ a < r → pointAt h a < hash) as Hbefore.
  { intros a Ha. specialize (Hlo a Ha). unfold f in Hlo.
    apply Z.leb_gt in Hlo. done. }
  destruct (Z.eqb_spec r (len h)) as [Heq|Hneq].
  - right. split; [done|]. intros a Ha. apply Hbefore. lia.
  - left. split; [|done].
    specialize (Hhi r ltac:(lia)). unfold f in Hhi. by apply Z.leb_le.
Qed.

(** *** Building the ring *)

Lemma addPoint_fold nodeID : ∀ (idxs : list Z) h,
  let h' := foldl (addPoint nodeID) h idxs in
  let pts := (fun i => hashKey (pointName nodeID i)) <$> idxs in
  replicas h' = replicas h
  ∧ nodes h' = nodes h ++ pts
  ∧ ∀ x, nodeMap h' !! x
         = if decide (x ∈ pts) then Some nodeID else nodeMap h !! x.
Proof.
  induction idxs as [|i idxs IH]; intros h; cbn [foldl fmap list_fmap].
  { split_and!; [done | by rewrite app_nil_r |]. intros x.
    destruct (decide (x ∈ [])) as [Hin|_]; [by inversion Hin | done]. }
  destruct (IH (addPoint nodeID h i)) as (Hr & Hn & Hm).
  split_and!.
  - by rewrite Hr.
  - rewrite Hn. cbn [addPoint nodes]. by rewrite <- app_assoc.
  - intros x. rewrite Hm. cbn [addPoint nodeMap].
    set (p := hashKey (pointName nodeID i)).
    set (pts := (fun i => hashKey (pointName nodeID i)) <$> idxs).
    destruct (decide (x ∈ pts)) as [Hin|Hnin].
    + rewrite decide_True by (by right). done.
    + destruct (decide (x = p)) as [->|Hne].
      * rewrite lookup_insert_eq. rewrite decide_True by (by left). done.
      * rewrite lookup_insert_ne by done.
        rewrite decide_False; [done|]. rewrite elem_of_cons. tauto.
Qed.

Lemma AddNode_replicas h nodeID : replicas (AddNode h nodeID) = replicas h.
Proof.
  unfold AddNode. cbn [replicas].
  apply (addPoint_fold nodeID (Z.of_nat <$> seq 0 (Z.to_nat (replicas h))) h).
Qed.

Lemma AddNode_nodes h nodeID :
  nodes (AddNode h nodeID) ≡ₚ nodes h ++ pointsOf nodeID (replicas h).
Proof.
  unfold AddNode. cbn [nodes]. rewrite sortInts_Permutation.
  destruct (addPoint_fold nodeID
              (Z.of_nat <$> seq 0 (Z.to_nat (replicas h))) h)
    as (_ & -> & _). done.
Qed.

Lemma AddNode_nodeMap h nodeID x :
  nodeMap (AddNode h nodeID) !! x
  = if decide (x ∈ pointsOf nodeID (replicas h)) then Some nodeID
    else nodeMap h !! x.
Proof.
  unfold AddNode. cbn [nodeMap].
  destruct (addPoint_fold nodeID
              (Z.of_nat <$> seq 0 (Z.to_nat (replicas h))) h)
    as (_ & _ & ->). done.
Qed.

Lemma AddNode_sorted h nodeID : Sorted Z.le (nodes (AddNode h nodeID)).
Proof. unfold AddNode. cbn [nodes]. apply sortInts_Sorted. Qed.

Lemma pointsOf_elem nodeID r i :
  0 ≤ i < r → hashKey (pointName nodeID i) ∈ pointsOf nodeID r.
Proof.
  intros Hi. unfold pointsOf.
  apply (list_elem_of_fmap_2 (fun i => hashKey (pointName nodeID i))).
  apply list_elem_of_fmap. exists (Z.to_nat i). split; [lia|].
  apply elem_of_seq. lia.
Qed.

Lemma removePoint_sorted nodeID : ∀ l acc m,
  StronglySorted Z.le (acc ++ l) →
  StronglySorted Z.le (foldl (removePoint nodeID) (acc, m) l).1.
Proof.
  induction l as [|x l IH]; intros acc m Hs; cbn [foldl].
  { cbn [fst]. by rewrite app_nil_r in Hs. }
  unfold removePoint at 2. cbn [fst snd].
  destruct (decide (owner m x = nodeID)).
  - apply IH. apply StronglySorted_app in Hs as (Hle & Hacc & Hxl).
    apply StronglySorted_app. split_and!; [|done|].
    + intros ? ? ? ?. apply Hle; [done | by right].
    + by apply StronglySorted_cons in Hxl as [_ ?].
  - apply IH. by rewrite <- app_assoc.
Qed.

(** The ring the program builds is sorted at all times, which is what
    the binary search relies on. *)
Lemma ring_built_sorted h : ring_built h → Sorted Z.le (nodes h).
Proof.
  induction 1 as [r|h nodeID _ _|h nodeID _ IH].
  - constructor.
  - apply AddNode_sorted.
  - unfold RemoveNode. cbn [nodes].
    apply StronglySorted_Sorted, removePoint_sorted.
    by apply Sorted_StronglySorted; [apply _|].
Qed.

(** *** The walk of [GetReplicas] *)

Lemma replicasLoop_spec h idx k : ∀ fuel i seen acc,
  0 ≤ i → i + Z.of_nat fuel = len h * 2 →
  replicasLoop h idx k fuel i seen acc
  = acc ++ take (Z.to_nat (k - Z.of_nat (length acc)))
             (firstSeen seen (visited h idx <$> seq (Z.to_nat i) fuel)).
Proof.
  induction fuel as [|fuel IH]; intros i seen acc Hi Hfuel.
  { cbn [replicasLoop seq fmap list_fmap firstSeen].
    by rewrite take_nil, app_nil_r. }
  cbn [replicasLoop seq fmap list_fmap firstSeen].
  destruct (Z.ltb_spec (Z.of_nat (length acc)) k) as [Hk|Hk]; cbn [andb].
  2:{ replace (Z.to_nat (k - Z.of_nat (length acc))) with 0%nat by lia.
      by rewrite take_0, app_nil_r. }
  destruct (Z.ltb_spec i (len h * 2)) as [_|?]; [|lia].
  set (nodeID := owner (nodeMap h) (pointAt h ((idx + i) mod len h))).
  replace (visited h idx (Z.to_nat i)) with nodeID
    by (unfold visited; by rewrite Z2Nat.id).
  replace (S (Z.to_nat i)) with (Z.to_nat (i + 1)) by lia.
  destruct (decide (nodeID ∈ seen)) as [Hin|Hnin].
  - rewrite IH by lia. done.
  - rewrite IH by lia. rewrite length_app. cbn [length].
    replace (Z.to_nat (k - Z.of_nat (length acc)))
      with (S (Z.to_nat (k - Z.of_nat (length acc + 1)))) by lia.
    cbn [take]. by rewrite <- app_assoc.
Qed.

Lemma walk_visited h start :
  walk h start = visited h start <$> seq 0 (2 * length (nodes h)).
Proof. done. Qed.

Lemma GetReplicas_spec h key k :
  nodes h ≠ [] → 1 ≤ k →
  GetReplicas h key k
  = take (Z.to_nat k) (firstSeen ∅ (walk h (startIndex h (hashKey key)))).
Proof.
  intros Hne Hk. unfold GetReplicas.
  assert (0 < len h) by (unfold len; destruct (nodes h); simpl; [done | lia]).
  destruct (Z.eqb_spec (len h) 0); [lia|].
  destruct (Z.leb_spec k 0); [lia|]. cbn [orb].
  rewrite replicasLoop_spec by lia.
  cbn [app length]. rewrite walk_visited.
  replace (Z.to_nat (k - Z.of_nat 0)) with (Z.to_nat k) by lia.
  replace (Z.to_nat (len h * 2)) with (2 * length (nodes h))%nat
    by (unfold len; lia).
  done.
Qed.

Lemma firstSeen_length (ids : list string) : ∀ seen : gset string,
  length (firstSeen seen ids) = size (list_to_set ids ∖ seen : gset string).
Proof.
  induction ids as [|x ids IH]; intros seen; cbn [firstSeen].
  { rewrite list_to_set_nil.
    replace (∅ ∖ seen : gset string) with (∅ : gset string) by set_solver.
    by rewrite size_empty. }
  rewrite list_to_set_cons. destruct (decide (x ∈ seen)) as [Hin|Hnin].
  - rewrite IH. f_equal. set_solver.
  - cbn [length]. rewrite IH.
    replace (({[x]} ∪ list_to_set ids) ∖ seen : gset string)
      with ({[x]} ∪ (list_to_set ids ∖ ({[x]} ∪ seen)) : gset string).
    + rewrite (size_union (C:=gset string) {[x]}) by set_solver.
      by rewrite size_singleton.
    + apply set_eq. intros y. destruct (decide (y = x)); set_solver.
Qed.

Lemma firstSeen_elem (ids : list string) : ∀ (seen : gset string) x,
  x ∈ firstSeen seen ids ↔ x ∈ ids ∧ x ∉ seen.
Proof.
  induction ids as [|y ids IH]; intros seen x; cbn [firstSeen].
  { set_solver. }
  destruct (decide (y ∈ seen)).
  - rewrite IH. set_solver.
  - rewrite elem_of_cons, IH. destruct (decide (x = y)); set_solver.
Qed.

Lemma firstSeen_NoDup (ids : list string) : ∀ seen : gset string,
  NoDup (firstSeen seen ids).
Proof.
  induction ids as [|y ids IH]; intros seen; cbn [firstSeen].
  { constructor. }
  destruct (decide (y ∈ seen)); [apply IH|].
  constructor; [|apply IH]. rewrite firstSeen_elem. set_solver.
Qed.

(** One lap is enough to meet every point, so the walk of two laps meets
    exactly the node IDs of the ring. *)
Lemma walk_owners h start :
  0 ≤ start → nodes h ≠ [] →
  (list_to_set (walk h start) : gset string) = list_to_set (owners h).
Proof.
  intros Hstart Hne.
  assert (0 < len h) as Hlen
    by (unfold len; destruct (nodes h); simpl; [done | lia]).
  apply set_eq. intros x. rewrite !elem_of_list_to_set.
  unfold walk, owners, visited. rewrite !list_elem_of_fmap. split.
  - intros (m & -> & _). eexists. split; [done|].
    apply list_elem_of_lookup. exists (Z.to_nat ((start + Z.of_nat m) mod len h)).
    apply pointAt_lookup. by apply Z.mod_pos_bound.
  - intros (p & -> & Hp). apply list_elem_of_lookup in Hp as [j Hj].
    pose proof (lookup_lt_Some _ _ _ Hj) as Hjlt.
    pose proof (Z.mod_pos_bound (Z.of_nat j - start) (len h) Hlen) as Hm.
    exists (Z.to_nat ((Z.of_nat j - start) mod len h)). split.
    + rewrite Z2Nat.id by lia.
      rewrite Zplus_mod_idemp_r.
      replace (start + (Z.of_nat j - start)) with (Z.of_nat j) by lia.
      rewrite Z.mod_small by (unfold len; lia).
      unfold pointAt. rewrite Nat2Z.id.
      by rewrite (list_lookup_total_correct _ _ _ Hj).
    + apply elem_of_seq. unfold len in *. lia.
Qed.

Lemma walk_head h start :
  0 ≤ start < len h →
  ∃ rest, walk h start = owner (nodeMap h) (pointAt h start) :: rest.
Proof.
  intros Hs. unfold walk, visited.
  destruct (length (nodes h)) as [|n] eqn:Hn; [unfold len in Hs; lia|].
  replace (2 * S n)%nat with (S (S (2 * n))) by lia.
  cbn [seq fmap list_fmap]. eexists.
  rewrite Z.add_0_r, Z.mod_small by done. done.
Qed.

(** C4.  On a non-empty sorted ring and for [k ≥ 1], [GetReplicas] starts
    at the first point whose hash is at least [hashKey key] (index 0 when
    there is none), walks [2·|points|] points clockwise with wrap-around
    keeping the node IDs not met before, and returns the first [k] of
    them.  It returns fewer than [k] IDs exactly when fewer than [k]
    distinct node IDs are met within the cap, which are the node IDs of
    the whole ring, and its first ID is the one [GetNode] returns. *)
Theorem GetReplicas_walk h key (k : Z) :
  Sorted Z.le (nodes h) → nodes h ≠ [] → 1 ≤ k →
  let s := startIndex h (hashKey key) in
  let ids := GetReplicas h key k in
  (0 ≤ s < len h
   ∧ ((hashKey key ≤ pointAt h s
       ∧ ∀ a, 0 ≤ a < s → pointAt h a < hashKey key)
      ∨ (s = 0 ∧ ∀ a, 0 ≤ a < len h → pointAt h a < hashKey key)))
  ∧ ids = take (Z.to_nat k) (firstSeen ∅ (walk h s))
  ∧ NoDup ids
  ∧ (Z.of_nat (length ids) < k
     ↔ Z.of_nat (size (list_to_set (walk h s) : gset string)) < k)
  ∧ (list_to_set (walk h s) : gset string) = list_to_set (owners h)
  ∧ head ids = Some (GetNode h key).
Proof.
  intros Hs Hne Hk s ids.
  pose proof (startIndex_range h (hashKey key) Hne) as Hrange. fold s in Hrange.
  assert (ids = take (Z.to_nat k) (firstSeen ∅ (walk h s))) as Hids
    by (by apply GetReplicas_spec).
  refine (conj (conj Hrange _) (conj Hids (conj _ (conj _ (conj _ _))))).
  - apply startIndex_spec; done.
  - rewrite Hids.
    eapply sublist_NoDup; [apply firstSeen_NoDup | apply sublist_take].
  - rewrite Hids, length_take, firstSeen_length.
    replace (list_to_set (walk h s) ∖ ∅ : gset string)
      with (list_to_set (walk h s) : gset string) by set_solver.
    lia.
  - apply walk_owners; [lia | done].
  - rewrite Hids. destruct (walk_head h s Hrange) as [rest ->].
    cbn [firstSeen]. destruct (decide (_ ∈ ∅)) as [Hin|_]; [set_solver|].
    replace (Z.to_nat k) with (S (Z.to_nat (k - 1))) by lia.
    cbn [take head]. f_equal. unfold GetNode.
    destruct (Z.eqb_spec (len h) 0); [lia | done].
Qed.

Lemma NewCluster_Ring selfID nodeAddrs r :
  Ring (NewCluster selfID nodeAddrs r)
  = foldl AddNode (NewHashRing r) nodeAddrs.
Proof.
  unfold NewCluster. cbn [Ring].
  generalize (NewHashRing r) (∅ : gmap string Node).
  induction nodeAddrs as [|a l IH]; intros h m; cbn [foldl]; [done|].
  by rewrite IH.
Qed.

Lemma foldl_AddNode_built nodeAddrs : ∀ h,
  ring_built h → ring_built (foldl AddNode h nodeAddrs).
Proof.
  induction nodeAddrs as [|a l IH]; intros h Hh; cbn [foldl]; [done|].
  apply IH. by constructor.
Qed.

Lemma composeCluster_built selfID : ring_built (Ring (composeCluster selfID)).
Proof.
  unfold composeCluster, StartHealthMonitor.
  destruct (Health _); cbn [Ring]; rewrite NewCluster_Ring;
    apply foldl_AddNode_built; constructor.
Qed.

Lemma GetReplicas_walk_witness :
  GetReplicas (Ring (composeCluster "node1:8081")) "key-1" 2
  = take 2 (firstSeen ∅
              (walk (Ring (composeCluster "node1:8081"))
                 (startIndex (Ring (composeCluster "node1:8081"))
                    (hashKey "key-1")))).
Proof.
  refine (proj1 (proj2 (GetReplicas_walk (Ring (composeCluster "node1:8081"))
                          "key-1" 2 _ _ _))).
  - apply ring_built_sorted, composeCluster_built.
  - vm_compute. discriminate.
  - lia.
Defined.

(** The walk on the ring of the compose file: the key lands on point 71
    and the first two distinct nodes are node1 and node2. *)
Example GetReplicas_compose :
  let h := Ring (composeCluster "node1:8081") in
  len h = 300
  ∧ startIndex h (hashKey "key-1") = 71
  ∧ GetReplicas h "key-1" 2 = ["node1:8081"; "node2:8082"]
  ∧ GetReplicas h "key-1" 5 = ["node1:8081"; "node2:8082"; "node3:8083"]
  ∧ GetNode h "key-1" = "node1:8081".
Proof. vm_compute. done. Qed.

(** *** Points with the same hash *)

Lemma count_occ_elem (l : list Z) x :
  x ∈ l → (1 ≤ count_occ Z.eq_dec l x)%nat.
Proof.
  intros Hin. apply list_elem_of_In in Hin.
  apply (count_occ_In Z.eq_dec) in Hin. lia.
Qed.

(** C9 (amended).  When point [i] of node [a] and point [j] of node [b]
    have the same hash and [a] is added before [b], the hash is kept
    twice in the sorted list, but the map from hash to node keeps one
    owner per hash, the node added last: every lookup that lands on
    either point returns [b]. *)
Theorem colliding_points_go_to_last_added h (a b : string) (i j : Z) :
  0 ≤ i < replicas h → 0 ≤ j < replicas h →
  hashKey (pointName a i) = hashKey (pointName b j) →
  let h' := AddNode (AddNode h a) b in
  let x := hashKey (pointName a i) in
  Sorted Z.le (nodes h')
  ∧ (2 ≤ count_occ Z.eq_dec (nodes h') x)%nat
  ∧ nodeMap h' !! x = Some b
  ∧ ∀ idx, pointAt h' idx = x →
      owner (nodeMap h') (pointAt h' idx) = b.
Proof.
  intros Hi Hj Hcoll h' x.
  assert (nodeMap h' !! x = Some b) as Hmap.
  { unfold h'. rewrite AddNode_nodeMap, AddNode_replicas.
    rewrite decide_True; [done|]. unfold x. rewrite Hcoll.
    by apply pointsOf_elem. }
  split_and!.
  - apply AddNode_sorted.
  - unfold h'.
    rewrite (proj1 (Permutation_count_occ Z.eq_dec _ _)
               (AddNode_nodes (AddNode h a) b)).
    rewrite count_occ_app.
    rewrite (proj1 (Permutation_count_occ Z.eq_dec _ _)
               (AddNode_nodes h a)).
    rewrite count_occ_app, AddNode_replicas.
    pose proof (count_occ_elem _ _ (pointsOf_elem a (replicas h) i Hi)).
    pose proof (count_occ_elem _ _ (pointsOf_elem b (replicas h) j Hj)) as Hb.
    rewrite <- Hcoll in Hb. fold x in Hb. fold x in H. lia.
  - done.
  - intros idx ->. unfold owner. by rewrite Hmap.
Qed.

Lemma colliding_points_go_to_last_added_witness :
  nodeMap collidingRing !! hashKey (pointName "node671:8080" 42)
  = Some "node1557:8080".
Proof.
  refine (proj1 (proj2 (proj2
    (colliding_points_go_to_last_added (NewHashRing 100)
       "node671:8080" "node1557:8080" 42 40 _ _ _)))).
  - cbn [replicas NewHashRing]. lia.
  - cbn [replicas NewHashRing]. lia.
  - vm_compute. reflexivity.
Defined.

(** C9 as stated fails.  Point 42 of node671 and point 40 of node1557
    both hash to 1335278470.  With 100 points per node, as [main] builds
    the ring, and node671 added first, the hash sits at indexes 65 and 66,
    and both resolve to node1557: no point of the ring resolves to
    node671 at that hash, and a key that lands on index 65 is served by
    node1557. *)
Lemma colliding_point_lost_to_later_node :
  let x := 1335278470 in
  (hashKey (pointName "node671:8080" 42) = x
   ∧ hashKey (pointName "node1557:8080" 40) = x
   ∧ pointAt collidingRing 65 = x
   ∧ pointAt collidingRing 66 = x
   ∧ count_occ Z.eq_dec (nodes collidingRing) x = 2%nat
   ∧ owner (nodeMap collidingRing) x = "node1557:8080"
   ∧ startIndex collidingRing (hashKey "key-1073") = 65
   ∧ GetNode collidingRing "key-1073" = "node1557:8080")
  ∧ ¬ (∃ idx, pointAt collidingRing idx = x
              ∧ owner (nodeMap collidingRing) (pointAt collidingRing idx)
                = "node671:8080").
Proof.
  intros x.
  assert (hashKey (pointName "node671:8080" 42) = x
          ∧ hashKey (pointName "node1557:8080" 40) = x
          ∧ pointAt collidingRing 65 = x
          ∧ pointAt collidingRing 66 = x
          ∧ count_occ Z.eq_dec (nodes collidingRing) x = 2%nat
          ∧ owner (nodeMap collidingRing) x = "node1557:8080"
          ∧ startIndex collidingRing (hashKey "key-1073") = 65
          ∧ GetNode collidingRing "key-1073" = "node1557:8080") as Hrun.
  { vm_compute. split_and!; reflexivity. }
  split; [exact Hrun|].
  destruct Hrun as (_ & _ & _ & _ & _ & Hown & _ & _).
  intros (idx & -> & Hbad). rewrite Hown in Hbad. discriminate Hbad.
Qed.

End ring.

(** ** The coordinator *)

Section coordinator.
Implicit Types (clust : Cluster) (cache : Cache) (req : SetRequest).

(** *** The replica loop *)

Lemma replicaLoop_spec clust selfID (replicas : list Node) :
  replicaLoop clust selfID replicas
  = (filter (fun n => treatedHealthy clust n) replicas,
     bool_decide (selfID ∈ ID <$> replicas)).
Proof.
  unfold replicaLoop.
  assert (∀ acc b,
    foldl (fun (st : list Node * bool) node =>
             (if treatedHealthy clust node then st.1 ++ [node] else st.1,
              if decide (ID node = selfID) then true else st.2))
          (acc, b) replicas
    = (acc ++ filter (fun n => treatedHealthy clust n) replicas,
       b || bool_decide (selfID ∈ ID <$> replicas))) as Hgen.
  { induction replicas as [|n l IH]; intros acc b; cbn [foldl].
    { rewrite app_nil_r, orb_false_r. done. }
    rewrite IH. cbn [fst snd fmap list_fmap]. f_equal.
    - rewrite filter_cons.
      destruct (treatedHealthy clust n); cbn.
      + by rewrite <- app_assoc.
      + done.
    - destruct (decide (ID n = selfID)) as [Heq|Hne].
      + rewrite (bool_decide_eq_true_2 (selfID ∈ ID n :: (ID <$> l)))
          by (rewrite Heq; by left).
        by rewrite orb_true_r.
      + f_equal. apply bool_decide_ext. rewrite elem_of_cons.
        split; [tauto | intros [?|?]; [congruence | done]]. }
  apply (Hgen [] false).
Qed.

Lemma treatedHealthy_iff clust node :
  treatedHealthy clust node = true ↔ known_healthy clust node.
Proof.
  unfold treatedHealthy, known_healthy, IsNodeHealthy.
  destruct (Health clust) as [tr|].
  - destruct (status tr !! ID node) as [[]|] eqn:Hst.
    + split; [|done]. intros _. right. eauto.
    + split; [done|]. intros [?|(tr' & [= <-] & Htr)]; [done | congruence].
    + split; [done|]. intros [?|(tr' & [= <-] & Htr)]; [done | congruence].
  - split; [|done]. intros _. by left.
Qed.

(** C8.  The replica loop of the handlers keeps a node as healthy exactly
    when the health tracker has not been created or its map holds [true]
    for the node; with a tracker in place, a node that is missing from the
    map is dropped. *)
Theorem healthy_filter_iff clust selfID (replicas : list Node) node :
  (treatedHealthy clust node = true ↔ known_healthy clust node)
  ∧ (node ∈ (replicaLoop clust selfID replicas).1
     ↔ node ∈ replicas ∧ known_healthy clust node)
  ∧ (Health clust = None → treatedHealthy clust node = true)
  ∧ (∀ tr, Health clust = Some tr → status tr !! ID node = None →
       treatedHealthy clust node = false
       ∧ node ∉ (replicaLoop clust selfID replicas).1).
Proof.
  assert (node ∈ (replicaLoop clust selfID replicas).1
          ↔ node ∈ replicas ∧ known_healthy clust node) as Hmem.
  { rewrite replicaLoop_spec. cbn [fst]. rewrite list_elem_of_filter.
    rewrite <- treatedHealthy_iff.
    destruct (treatedHealthy clust node); cbn; naive_solver. }
  split_and!.
  - apply treatedHealthy_iff.
  - exact Hmem.
  - intros Hnone. unfold treatedHealthy. by rewrite Hnone.
  - intros tr Htr Hmiss.
    assert (treatedHealthy clust node = false) as Hf.
    { unfold treatedHealthy, IsNodeHealthy. by rewrite Htr, Hmiss. }
    split; [done|]. rewrite Hmem, <- treatedHealthy_iff, Hf. naive_solver.
Qed.

(** Right after [StartHealthMonitor], before the first turn of the
    monitor, the map is empty: every replica, the node itself included,
    is dropped and a write is answered 503. *)
Example unknown_nodes_unhealthy :
  let clust := composeCluster "node1:8081" in
  (replicaLoop clust "node1:8081" (GetResponsibleNodes clust "key-1" 2)).1
  = []
  ∧ StatusCode
      (reply (handleSet clust "node1:8081" 2 NewCache
                (Some (mkSet "key-1" "v" 0 0)) 0 0))
    = StatusServiceUnavailable.
Proof. vm_compute. done. Qed.

(** *** Writes *)

(** The body of [handleSet] once the request is decoded, has a key and
    has met the replica loop. *)
Lemma handleSet_unfold clust selfID K cache req tReq tSet :
  Key req ≠ "" →
  let req' := withStamp req (stampOf req tReq) in
  let loop :=
    replicaLoop clust selfID (GetResponsibleNodes clust (Key req) K) in
  handleSet clust selfID K cache (Some req) tReq tSet
  = if decide (length loop.1 = 0%nat) then
      mkOutcome (httpError "no healthy replicas" StatusServiceUnavailable)
        cache []
    else if negb loop.2 then
      mkOutcome (writeHeader StatusNoContent) cache
        ((fun node => (node, req'))
           <$> filter (fun node => ID node ≠ selfID) loop.1)
    else if (Cache_Set cache (Key req) (ReqValue req) (TTL req)
               (stampOf req tReq) tSet).2
    then mkOutcome (writeHeader StatusNoContent)
           (Cache_Set cache (Key req) (ReqValue req) (TTL req)
              (stampOf req tReq) tSet).1 []
    else mkOutcome
           (mkResp StatusConflict
              "conflict: incoming update is older than current value")
           (Cache_Set cache (Key req) (ReqValue req) (TTL req)
              (stampOf req tReq) tSet).1 [].
Proof.
  intros Hkey req' loop. unfold handleSet.
  rewrite decide_False by done.
  cbn [withStamp Key ReqValue TTL ReqLastUpdated]. fold loop.
  destruct loop as [healthy isReplica]. cbn [fst snd].
  destruct (decide (length healthy = 0%nat)); [done|].
  destruct isReplica; cbn [negb]; [|done].
  destruct (Cache_Set _ _ _ _ _ _) as [cache' []]; done.
Qed.

Lemma filter_all {A} (P : A → Prop) `{∀ x, Decision (P x)} (l : list A) :
  Forall P l → filter P l = l.
Proof.
  induction 1 as [|x l Hx Hl IH]; [done|].
  rewrite filter_cons, decide_True by done. by rewrite IH.
Qed.

(** A node that is not a replica for the key forwards the stamped write
    to every healthy replica and touches no store of its own. *)
Lemma handleSet_coordinator_forwards clust selfID K cache req tReq tSet :
  Key req ≠ "" →
  let loop :=
    replicaLoop clust selfID (GetResponsibleNodes clust (Key req) K) in
  loop.2 = false → loop.1 ≠ [] →
  handleSet clust selfID K cache (Some req) tReq tSet
  = mkOutcome (writeHeader StatusNoContent) cache
      ((fun node => (node, withStamp req (stampOf req tReq))) <$> loop.1).
Proof.
  intros Hkey loop Hrep Hne. rewrite handleSet_unfold by done. fold loop.
  destruct (decide (length loop.1 = 0%nat)) as [H0|_].
  { by apply nil_length_inv in H0. }
  rewrite Hrep. cbn [negb]. do 2 f_equal.
  apply filter_all, Forall_forall. intros node Hin Heq.
  unfold loop in Hin, Hrep. rewrite replicaLoop_spec in Hin, Hrep.
  cbn [fst snd] in Hin, Hrep.
  apply list_elem_of_filter in Hin as [_ Hin].
  apply bool_decide_eq_false in Hrep. apply Hrep.
  rewrite <- Heq. by apply list_elem_of_fmap_2.
Qed.

(** The replica path of [handleSet] as the code has it.  On a node that is
    itself a replica for the key, when the local put returns stored, the
    handler answers 204 with the entry (value and assigned timestamp) in
    its own store and forwards the write to nobody: the fan-out sits
    inside [if !isReplica] and this path has none of its own. *)
Theorem handleSet_replica_keeps_write_local clust selfID K cache req
    tReq tSet cache' :
  Key req ≠ "" →
  (replicaLoop clust selfID (GetResponsibleNodes clust (Key req) K)).2
  = true →
  (replicaLoop clust selfID (GetResponsibleNodes clust (Key req) K)).1
  ≠ [] →
  Cache_Set cache (Key req) (ReqValue req) (TTL req) (stampOf req tReq) tSet
  = (cache', true) →
  handleSet clust selfID K cache (Some req) tReq tSet
  = mkOutcome (writeHeader StatusNoContent) cache' []
  ∧ cache' !! Key req
    = Some (mkItem (ReqValue req) (expiry (TTL req) tSet)
              (stampOf req tReq)).
Proof.
  intros Hkey Hrep Hne Hset. split.
  - rewrite handleSet_unfold by done.
    destruct (decide (length _ = 0%nat)) as [H0|_].
    { by apply nil_length_inv in H0. }
    rewrite Hrep, Hset. done.
  - unfold Cache_Set in Hset.
    destruct (cache !! Key req) as [e|]; [destruct (_ <=? _)|];
      inversion Hset; subst; apply lookup_insert_eq.
Qed.

Lemma handleSet_replica_keeps_write_local_witness :
  handleSet (composeView "node1:8081") "node1:8081" 2 NewCache
    (Some (mkSet "key-1" "v" 0 100)) 0 0
  = mkOutcome (writeHeader StatusNoContent)
      {["key-1" := mkItem "v" 0 100]} [].
Proof.
  refine (proj1 (handleSet_replica_keeps_write_local
            (composeView "node1:8081") "node1:8081" 2 NewCache
            (mkSet "key-1" "v" 0 100) 0 0
            {["key-1" := mkItem "v" 0 100]} _ _ _ _)).
  - discriminate.
  - vm_compute. reflexivity.
  - vm_compute. discriminate.
  - vm_compute. reflexivity.
Defined.

(** C1.  The code does not do what the claim says of a write handled by a
    replica.  On the cluster of the compose file with every node healthy,
    [key-1] belongs to node1 and node2.  A client write to node1 is stored
    there and answered 204, but nothing is forwarded, and once the request
    is over node2, a healthy replica, holds no entry: the acknowledged
    write lives on one node only.  The fan-out the claim describes exists
    in the sibling path for a node that is not a replica, and is missing
    from this one. *)
Lemma replica_write_not_fanned_out :
  let req := mkSet "key-1" "v" 0 100 in
  let clust := composeView "node1:8081" in
  let loop :=
    replicaLoop clust "node1:8081" (GetResponsibleNodes clust "key-1" 2) in
  let out := handleSet clust "node1:8081" 2 NewCache (Some req) 0 0 in
  let after := clientSet composeNet 2 "node1:8081" req 0 0 in
  (loop = ([mkNode "node1:8081" "node1:8081";
            mkNode "node2:8082" "node2:8082"], true)
   ∧ (Cache_Set NewCache "key-1" "v" 0 100 0).2 = true
   ∧ reply out = writeHeader StatusNoContent
   ∧ sent out = []
   ∧ after.1.2 = Some (writeHeader StatusNoContent)
   ∧ after.2 = []
   ∧ held after.1.1 "node1:8081" "key-1" = Some (mkItem "v" 0 100)
   ∧ held after.1.1 "node2:8082" "key-1" = None)
  ∧ ¬ (∀ node, node ∈ loop.1 → ID node ≠ "node1:8081" →
         (node, req) ∈ sent out)
  ∧ held after.1.1 "node2:8082" "key-1"
    ≠ held after.1.1 "node1:8081" "key-1".
Proof.
  intros req clust loop out after.
  assert (loop = ([mkNode "node1:8081" "node1:8081";
                   mkNode "node2:8082" "node2:8082"], true)
          ∧ (Cache_Set NewCache "key-1" "v" 0 100 0).2 = true
          ∧ reply out = writeHeader StatusNoContent
          ∧ sent out = []
          ∧ after.1.2 = Some (writeHeader StatusNoContent)
          ∧ after.2 = []
          ∧ held after.1.1 "node1:8081" "key-1" = Some (mkItem "v" 0 100)
          ∧ held after.1.1 "node2:8082" "key-1" = None) as Hrun.
  { vm_compute. split_and!; reflexivity. }
  split; [exact Hrun|].
  destruct Hrun as (Hloop & _ & _ & Hsent & _ & _ & H1 & H2).
  rewrite Hloop, Hsent, H1, H2. cbn [fst]. split; [|discriminate].
  intros Hall.
  eapply not_elem_of_nil, (Hall (mkNode "node2:8082" "node2:8082")).
  - right. left.
  - cbn [ID]. discriminate.
Qed.

(** The sibling path on the same cluster: the same write sent to node3,
    which is not a replica for the key, reaches both replicas. *)
Example coordinator_write_fanned_out :
  let req := mkSet "key-1" "v" 0 100 in
  let after := clientSet composeNet 2 "node3:8083" req 0 0 in
  after.1.2 = Some (writeHeader StatusNoContent)
  ∧ after.2 = []
  ∧ held after.1.1 "node1:8081" "key-1" = Some (mkItem "v" 0 100)
  ∧ held after.1.1 "node2:8082" "key-1" = Some (mkItem "v" 0 100)
  ∧ held after.1.1 "node3:8083" "key-1" = None.
Proof. vm_compute. split_and!; done. Qed.

(** Scenario "stale write rejected": after a write with timestamp 100,
    a write with timestamp 50 to the same key is answered 409 and the
    store keeps the first value. *)
Example stale_write_conflict :
  let clust := composeView "node1:8081" in
  let first :=
    handleSet clust "node1:8081" 2 NewCache
      (Some (mkSet "key-1" "new" 0 100)) 0 0 in
  let second :=
    handleSet clust "node1:8081" 2 (store first)
      (Some (mkSet "key-1" "old" 0 50)) 0 0 in
  StatusCode (reply first) = StatusNoContent
  ∧ StatusCode (reply second) = StatusConflict
  ∧ sent second = []
  ∧ store second !! "key-1" = Some (mkItem "new" 0 100).
Proof. vm_compute. split_and!; done. Qed.

(** *** The TTL of a write *)

Lemma Cache_Set_negative_ttl cache key v ttl ts now :
  ttl < 0 → Cache_Set cache key v ttl ts now = Cache_Set cache key v 0 ts now.
Proof.
  intros Httl. unfold Cache_Set.
  by rewrite (expiry_no_ttl ttl) by lia.
Qed.

(** C7 (amended).  A write with a negative TTL is not turned away for its
    TTL: it is answered, and changes the store, exactly as the same write
    with TTL 0 (no expiration), and it is forwarded to the same nodes,
    carrying its negative TTL along. *)
Theorem negative_ttl_is_no_ttl clust selfID K cache req tReq tSet :
  TTL req < 0 →
  let out := handleSet clust selfID K cache (Some req) tReq tSet in
  let out0 :=
    handleSet clust selfID K cache (Some (withTTL req 0)) tReq tSet in
  reply out = reply out0
  ∧ store out = store out0
  ∧ (sent out).*1 = (sent out0).*1
  ∧ Forall (fun m => m.2 = withStamp req (stampOf req tReq)) (sent out).
Proof.
  intros Httl out out0. unfold out, out0, handleSet.
  cbn [withTTL withStamp Key ReqValue TTL ReqLastUpdated stampOf].
  destruct (decide (Key req = "")) as [|Hkey].
  { cbn [reply store sent]. split_and!; done. }
  fold (stampOf req tReq).
  destruct (replicaLoop _ _ _) as [healthy isReplica].
  destruct (decide (length healthy = 0%nat)).
  { cbn [reply store sent]. split_and!; done. }
  destruct isReplica; cbn [negb].
  - rewrite (Cache_Set_negative_ttl _ _ _ (TTL req)) by done.
    destruct (Cache_Set _ _ _ _ _ _) as [cache' []]; cbn [negb reply store sent];
      split_and!; done.
  - cbn [reply store sent]. split_and!; [done | done | |].
    + rewrite <- !list_fmap_compose. done.
    + apply Forall_fmap, Forall_forall. done.
Qed.

Lemma negative_ttl_is_no_ttl_witness :
  store (handleSet (composeView "node1:8081") "node1:8081" 2 NewCache
           (Some (mkSet "key-1" "v" (-5) 100)) 0 0)
  = store (handleSet (composeView "node1:8081") "node1:8081" 2 NewCache
             (Some (withTTL (mkSet "key-1" "v" (-5) 100) 0)) 0 0).
Proof.
  refine (proj1 (proj2 (negative_ttl_is_no_ttl
            (composeView "node1:8081") "node1:8081" 2 NewCache
            (mkSet "key-1" "v" (-5) 100) 0 0 _))).
  cbn [TTL]. lia.
Defined.

(** C7 as stated fails: on node1 of the compose cluster a write with
    [ttl = -5] is answered 204, not 400, and is stored, without
    expiration. *)
Lemma negative_ttl_accepted :
  let out :=
    handleSet (composeView "node1:8081") "node1:8081" 2 NewCache
      (Some (mkSet "key-1" "v" (-5) 100)) 0 0 in
  reply out = writeHeader StatusNoContent
  ∧ StatusCode (reply out) ≠ StatusBadRequest
  ∧ store out !! "key-1" = Some (mkItem "v" 0 100)
  ∧ store out ≠ NewCache.
Proof. vm_compute. split_and!; done. Qed.

(** *** The timestamp of a write *)

Lemma stampOf_zero req tReq :
  ReqLastUpdated req = 0 →
  stampOf req tReq = Z.quot (UnixNano tReq) Millisecond.
Proof. intros H. unfold stampOf. by rewrite H. Qed.

Lemma stampOf_nonzero req tReq :
  Z.quot (UnixNano tReq) Millisecond ≠ 0 → stampOf req tReq ≠ 0.
Proof.
  intros H. unfold stampOf.
  destruct (Z.eqb_spec (ReqLastUpdated req) 0); done.
Qed.

(** Whatever [handleSet] leaves in the store was there before or carries
    the timestamp assigned to the request. *)
Lemma handleSet_store clust selfID K cache body tReq tSet key item :
  store (handleSet clust selfID K cache body tReq tSet) !! key = Some item →
  cache !! key = Some item
  ∨ ∃ req, body = Some req ∧ key = Key req
           ∧ LastUpdated item = stampOf req tReq.
Proof.
  destruct body as [req|]; [|by left].
  destruct (decide (Key req = "")) as [Hk|Hk].
  { unfold handleSet. rewrite decide_True by done. by left. }
  rewrite handleSet_unfold by done.
  destruct (decide (length _ = 0%nat)); [by left|].
  destruct (replicaLoop _ _ _).2; cbn [negb]; [|by left].
  unfold Cache_Set.
  destruct (cache !! Key req) as [e|];
    [destruct (_ <=? _)|]; cbn [fst snd store]; try (by left).
  - destruct (decide (Key req = key)) as [<-|Hne].
    + rewrite lookup_insert_eq. intros [= <-]. right. eauto.
    + rewrite lookup_insert_ne by done. by left.
  - destruct (decide (Key req = key)) as [<-|Hne].
    + rewrite lookup_insert_eq. intros [= <-]. right. eauto.
    + rewrite lookup_insert_ne by done. by left.
Qed.

Lemma Cache_Get_store cache key now k item :
  (Cache_Get cache key now).1 !! k = Some item → cache !! k = Some item.
Proof.
  unfold Cache_Get.
  destruct (cache !! key) as [e|]; [destruct (_ && _)|]; cbn [fst];
    try done.
  intros H. by apply lookup_delete_Some in H as [_ ?].
Qed.

Lemma getLoop_store selfID key now peer k item : ∀ healthy cache,
  (getLoop selfID cache key now peer healthy).2 !! k = Some item →
  cache !! k = Some item.
Proof.
  induction healthy as [|node rest IH]; intros cache; cbn [getLoop].
  { done. }
  destruct (decide (ID node = selfID)).
  - destruct (Cache_Get cache key now) as [cache' [v|]] eqn:Hget.
    + cbn [snd]. intros H.
      apply (Cache_Get_store cache key now). by rewrite Hget.
    + intros H. apply IH in H.
      apply (Cache_Get_store cache key now). by rewrite Hget.
  - destruct (peer node); [done | apply IH].
Qed.

(** [handleDelete] leaves the store as it was or takes the key out of it,
    whether it returns or panics. *)
Lemma handleDelete_store NewRequest clust selfID K cache key :
  runStore (handleDelete NewRequest clust selfID K cache key) = cache
  ∨ runStore (handleDelete NewRequest clust selfID K cache key)
    = Cache_Delete cache key.
Proof.
  unfold handleDelete. destruct (decide (key = "")); [by left|].
  destruct (replicaLoop _ _ _) as [healthy isReplica].
  destruct (decide (length healthy = 0%nat)); [by left|].
  destruct isReplica; cbn [negb]; [by right|].
  destruct (deleteLoop _ _ _ _) as [sentOn [|]]; by left.
Qed.

(** Serving a request never brings an entry with timestamp 0 into a
    store that has none, as long as the clock does not read millisecond
    0 when a timestamp is assigned. *)
Lemma serve_stamps clust selfID K cache (r : Request) :
  (∀ t, stampClock r = Some t → Z.quot (UnixNano t) Millisecond ≠ 0) →
  (∀ key item, cache !! key = Some item → LastUpdated item ≠ 0) →
  ∀ key item,
    serve clust selfID K cache r !! key = Some item → LastUpdated item ≠ 0.
Proof.
  intros Hclock Hinv key item.
  destruct r as [body tReq tSet|k now peer|k NewRequest]; cbn [serve].
  - intros H. apply handleSet_store in H as [H|(req & -> & _ & ->)].
    + by apply (Hinv key).
    + apply stampOf_nonzero. by apply Hclock.
  - unfold handleGet. destruct (decide (k = "")); [apply Hinv|].
    destruct (decide (length _ = 0%nat)); [apply Hinv|].
    intros H. apply getLoop_store in H. by apply (Hinv key).
  - destruct (handleDelete_store NewRequest clust selfID K cache k)
      as [->| ->]; [apply Hinv|].
    unfold Cache_Delete. intros H.
    apply lookup_delete_Some in H as [_ H]. by apply (Hinv key).
Qed.

(** C10.  A write whose body carries [last_updated = 0] is handled as the
    same write carrying the coordinator's clock in milliseconds: that is
    the timestamp put in the store and the one every forwarded copy
    carries.  Hence, with a clock that does not read millisecond 0 when a
    timestamp is assigned, no sequence of requests served from an empty
    store leaves an entry whose timestamp is 0. *)
Theorem zero_timestamp_is_replaced selfID K (rs : list (Cluster * Request)) :
  Forall (fun r => ∀ t, stampClock r.2 = Some t →
                        Z.quot (UnixNano t) Millisecond ≠ 0) rs →
  (∀ clust cache req tReq tSet,
     ReqLastUpdated req = 0 →
     let now_ms := Z.quot (UnixNano tReq) Millisecond in
     let out := handleSet clust selfID K cache (Some req) tReq tSet in
     out = handleSet clust selfID K cache (Some (withStamp req now_ms))
             tReq tSet
     ∧ Forall (fun m => ReqLastUpdated m.2 = now_ms) (sent out)
     ∧ (∀ item, store out !! Key req = Some item →
          cache !! Key req ≠ Some item → LastUpdated item = now_ms))
  ∧ ∀ key item,
      serveAll selfID K NewCache rs !! key = Some item →
      LastUpdated item ≠ 0.
Proof.
  intros Hclock. split.
  - intros clust cache req tReq tSet Hzero now_ms out.
    assert (stampOf req tReq = now_ms) as Hstamp by by apply stampOf_zero.
    assert (stampOf (withStamp req now_ms) tReq = now_ms) as Hstamp'.
    { unfold stampOf. cbn [withStamp ReqLastUpdated].
      destruct (Z.eqb_spec now_ms 0); done. }
    split_and!.
    + unfold out, handleSet. rewrite Hstamp, Hstamp'. done.
    + unfold out. destruct (decide (Key req = "")) as [Hk|Hk].
      { unfold handleSet. rewrite decide_True by done. constructor. }
      rewrite handleSet_unfold by done.
      destruct (decide (length _ = 0%nat)); [constructor|].
      destruct (replicaLoop _ _ _).2; cbn [negb].
      * destruct (Cache_Set _ _ _ _ _ _).2; constructor.
      * cbn [sent]. apply Forall_fmap, Forall_forall. intros node _.
        cbn. done.
    + intros item Hitem Hnew.
      apply handleSet_store in Hitem as [?|(req' & [= <-] & _ & ->)]; done.
  - unfold serveAll.
    assert (∀ cache,
      (∀ key item, cache !! key = Some item → LastUpdated item ≠ 0) →
      ∀ key item,
        foldl (fun c r => serve r.1 selfID K c r.2) cache rs !! key
        = Some item → LastUpdated item ≠ 0) as Hgen.
    { induction Hclock as [|r rs Hr Hrs IH]; intros cache Hinv; cbn [foldl].
      - exact Hinv.
      - apply IH. by apply serve_stamps. }
    apply Hgen. intros key item H. unfold NewCache in H.
    by rewrite lookup_empty in H.
Qed.

Lemma zero_timestamp_is_replaced_witness :
  LastUpdated (mkItem "v" 0 1700000000123) ≠ 0.
Proof.
  refine (proj2 (zero_timestamp_is_replaced "node1:8081" 2
            [(composeView "node1:8081",
              PostSet (Some (mkSet "key-1" "v" 0 0))
                (1700000000123 * Millisecond) (1700000000123 * Millisecond));
             (composeView "node1:8081", DeleteKey "key-2" (fun _ => true))] _)
            "key-1" (mkItem "v" 0 1700000000123) _).
  - repeat constructor; intros t [= <-]; vm_compute; discriminate.
  - vm_compute. reflexivity.
Defined.

(** The write of that run, evaluated: the client sent no timestamp and
    the entry carries the coordinator's clock, 1700000000123 ms. *)
Example zero_timestamp_run :
  store (handleSet (composeView "node1:8081") "node1:8081" 2 NewCache
           (Some (mkSet "key-1" "v" 0 0)) (1700000000123 * Millisecond)
           (1700000000123 * Millisecond)) !! "key-1"
  = Some (mkItem "v" 0 1700000000123).
Proof. vm_compute. done. Qed.

End coordinator.

(** * Further properties *)

(** ** More on the entry store *)

Section store_more.
Implicit Types (c : Cache) (key : string).

Lemma Cache_Get_other c key now key' :
  key ≠ key' → (Cache_Get c key now).1 !! key' = c !! key'.
Proof.
  intros Hne. unfold Cache_Get.
  destruct (c !! key) as [e|]; [destruct (_ && _)|]; cbn [fst]; try done.
  by rewrite lookup_delete_ne.
Qed.

(** X1.  A put whose TTL is zero or negative, once stored, is read back at
    every later or earlier clock reading: the entry never expires. *)
Theorem no_ttl_never_expires c key v ttl ts now c' :
  ttl ≤ 0 →
  Cache_Set c key v ttl ts now = (c', true) →
  c' !! key = Some (mkItem v 0 ts)
  ∧ ∀ t, Cache_Get c' key t = (c', Some v).
Proof.
  intros Httl Hset.
  assert (c' !! key = Some (mkItem v 0 ts)) as Hc'.
  { unfold Cache_Set in Hset. rewrite expiry_no_ttl in Hset by done.
    destruct (c !! key) as [e|]; [destruct (_ <=? _)|];
      inversion Hset; subst; apply lookup_insert_eq. }
  split; [done|]. intros t.
  rewrite (Cache_Get_live _ _ _ _ Hc'); [done|]. left. cbn. lia.
Qed.

Lemma no_ttl_never_expires_witness :
  Cache_Get {["a" := mkItem "v" 0 5]} "a" (4102444800 * Second)
  = ({["a" := mkItem "v" 0 5]}, Some "v").
Proof.
  refine (proj2 (no_ttl_never_expires NewCache "a" "v" (-3) 5 0
                   {["a" := mkItem "v" 0 5]} _ _) (4102444800 * Second)).
  - lia.
  - vm_compute. reflexivity.
Defined.

(** X2.  [Cache.Set] compares timestamps with whatever entry is resident, also
    one whose expiration has passed but that no read has removed yet: an
    older write is turned away by it, and the read that follows removes the
    expired entry, so the key ends up absent. *)
Theorem expired_entry_still_blocks c key e v ttl ts now :
  c !! key = Some e →
  0 < Expiration e → Expiration e < Unix now →
  ts < LastUpdated e →
  Cache_Set c key v ttl ts now = (c, false)
  ∧ Cache_Get c key now = (delete key c, None)
  ∧ store_run c [OpSet key v ttl ts now; OpGet key now] !! key = None.
Proof.
  intros Hc H0 Hexp Hts.
  assert (Cache_Set c key v ttl ts now = (c, false)) as Hset
    by (by apply (Cache_Set_stale _ _ _ _ _ _ e)).
  assert (Cache_Get c key now = (delete key c, None)) as Hget
    by (by apply (Cache_Get_expired _ _ _ e)).
  split_and!; [done | done |].
  unfold store_run. cbn [foldl store_step]. rewrite Hset. cbn [fst].
  rewrite Hget. cbn [fst]. apply lookup_delete_eq.
Qed.

Lemma expired_entry_still_blocks_witness :
  Cache_Set {["a" := mkItem "new" 10 100]} "a" "old" 0 50 (20 * Second)
  = ({["a" := mkItem "new" 10 100]}, false).
Proof.
  refine (proj1 (expired_entry_still_blocks {["a" := mkItem "new" 10 100]}
                   "a" (mkItem "new" 10 100) "old" 0 50 (20 * Second)
                   _ _ _ _)).
  - reflexivity.
  - cbn. lia.
  - vm_compute. reflexivity.
  - cbn. lia.
Defined.

(** X3.  After a delete the key reads as absent, a second delete changes
    nothing, and the next put is stored whatever its timestamp. *)
Theorem delete_then c key :
  (∀ now, Cache_Get (Cache_Delete c key) key now
          = (Cache_Delete c key, None))
  ∧ Cache_Delete (Cache_Delete c key) key = Cache_Delete c key
  ∧ (∀ key', key' ≠ key → Cache_Delete c key !! key' = c !! key')
  ∧ ∀ v ttl ts now,
      Cache_Set (Cache_Delete c key) key v ttl ts now
      = (<[key := mkItem v (expiry ttl now) ts]> c, true).
Proof.
  unfold Cache_Delete. split_and!.
  - intros now. apply Cache_Get_absent, lookup_delete_eq.
  - apply delete_id, lookup_delete_eq.
  - intros key' Hne. by apply lookup_delete_ne.
  - intros v ttl ts now.
    rewrite Cache_Set_absent by apply lookup_delete_eq.
    by rewrite insert_delete_eq.
Qed.

End store_more.

(** ** More on the hash ring *)

Section ring_more.
Implicit Types (h : HashRing).

Lemma AddNode_nodes_eq h nodeID :
  nodes (AddNode h nodeID)
  = sortInts (nodes h ++ pointsOf nodeID (replicas h)).
Proof.
  unfold AddNode. cbn [nodes].
  destruct (addPoint_fold nodeID
              (Z.of_nat <$> seq 0 (Z.to_nat (replicas h))) h)
    as (_ & -> & _). done.
Qed.

Lemma removePoint_keys nodeID : ∀ l acc m,
  (∀ x, is_Some (m !! x) → x ∈ acc ++ l) →
  ∀ x, is_Some ((foldl (removePoint nodeID) (acc, m) l).2 !! x) →
       x ∈ (foldl (removePoint nodeID) (acc, m) l).1.
Proof.
  induction l as [|x0 l IH]; intros acc m Hinv; cbn [foldl].
  { cbn [fst snd]. intros x Hx. specialize (Hinv x Hx).
    by rewrite app_nil_r in Hinv. }
  unfold removePoint at 2 4. cbn [fst snd].
  destruct (decide (owner m x0 = nodeID)).
  - apply IH. intros x Hx.
    destruct (decide (x = x0)) as [->|Hne].
    { rewrite lookup_delete_eq in Hx. by destruct Hx. }
    rewrite lookup_delete_ne in Hx by done.
    specialize (Hinv x Hx). rewrite elem_of_app, elem_of_cons in Hinv.
    rewrite elem_of_app. naive_solver.
  - apply IH. intros x Hx. specialize (Hinv x Hx).
    by rewrite <- app_assoc.
Qed.

Lemma ring_built_keys h :
  ring_built h → ∀ x, is_Some (nodeMap h !! x) → x ∈ nodes h.
Proof.
  induction 1 as [r|h nodeID _ Hk|h nodeID _ Hk].
  - intros x [y Hy]. cbn [NewHashRing nodeMap] in Hy.
    by rewrite lookup_empty in Hy.
  - intros x Hx.
    rewrite AddNode_nodeMap in Hx. rewrite AddNode_nodes_eq.
    rewrite sortInts_Permutation, elem_of_app.
    destruct (decide (x ∈ pointsOf nodeID (replicas h))); [by right|].
    left. by apply Hk.
  - unfold RemoveNode. cbn [nodes nodeMap].
    apply removePoint_keys. intros x Hx. by apply Hk.
Qed.

(** X4.  Every ring made by [NewHashRing], [AddNode] and [RemoveNode] has
    its points sorted, which the binary search of the lookups relies on,
    and its map from hash to node mentions only hashes that are points. *)
Theorem ring_built_wf h : ring_built h → ring_wf h.
Proof.
  intros Hb. split; [by apply ring_built_sorted | by apply ring_built_keys].
Qed.

Lemma ring_built_wf_witness :
  ring_wf (RemoveNode (AddNode (AddNode (NewHashRing 3) "a") "b") "a").
Proof. apply ring_built_wf. repeat constructor. Defined.

(** *** Removing a node *)

Lemma owner_is nodeID (m : gmap Z string) x :
  nodeID ≠ "" → owner m x = nodeID ↔ m !! x = Some nodeID.
Proof.
  intros Hne. unfold owner. destruct (m !! x) as [o|]; cbn.
  - split; [by intros -> | by intros [= ->]].
  - split; [by intros <- | done].
Qed.

Lemma removePoint_purges nodeID : nodeID ≠ "" → ∀ l acc m,
  (∀ x, m !! x = Some nodeID → x ∈ l) →
  ∀ x, (foldl (removePoint nodeID) (acc, m) l).2 !! x ≠ Some nodeID.
Proof.
  intros Hid. induction l as [|x0 l IH]; intros acc m Hinv; cbn [foldl].
  { cbn [snd]. intros x Hx. specialize (Hinv x Hx). by inversion Hinv. }
  unfold removePoint at 2. cbn [fst snd].
  destruct (decide (owner m x0 = nodeID)) as [Ho|Ho].
  - apply IH. intros x Hx.
    destruct (decide (x = x0)) as [->|Hne].
    { by rewrite lookup_delete_eq in Hx. }
    rewrite lookup_delete_ne in Hx by done.
    specialize (Hinv x Hx). apply elem_of_cons in Hinv as [?|?]; done.
  - apply IH. intros x Hx.
    specialize (Hinv x Hx). apply elem_of_cons in Hinv as [->|?]; [|done].
    by apply owner_is in Hx.
Qed.

Lemma removePoint_keeps nodeID x o : o ≠ nodeID → ∀ l acc m,
  m !! x = Some o →
  (foldl (removePoint nodeID) (acc, m) l).2 !! x = Some o
  ∧ (x ∈ acc ++ l → x ∈ (foldl (removePoint nodeID) (acc, m) l).1).
Proof.
  intros Ho. induction l as [|x0 l IH]; intros acc m Hm; cbn [foldl].
  { cbn [fst snd]. by rewrite app_nil_r. }
  unfold removePoint at 2 4. cbn [fst snd].
  destruct (decide (owner m x0 = nodeID)) as [Hx0|Hx0].
  - assert (x ≠ x0) as Hne.
    { intros ->. unfold owner in Hx0. rewrite Hm in Hx0. cbn in Hx0. done. }
    destruct (IH acc (delete x0 m)) as [H1 H2].
    { by rewrite lookup_delete_ne. }
    split; [done|]. intros Hin. apply H2.
    rewrite elem_of_app, elem_of_cons in Hin. rewrite elem_of_app.
    naive_solver.
  - destruct (IH (acc ++ [x0]) m Hm) as [H1 H2].
    split; [done|]. intros Hin. apply H2. by rewrite <- app_assoc.
Qed.

(** Every ID [GetReplicas] returns is the owner of a point of the ring. *)
Lemma GetReplicas_owners h key k id :
  id ∈ GetReplicas h key k → id ∈ owners h.
Proof.
  intros Hin.
  destruct (decide (nodes h = [])) as [Hnil|Hne].
  { unfold GetReplicas, len in Hin. rewrite Hnil in Hin. cbn in Hin.
    by inversion Hin. }
  destruct (Z.le_gt_cases k 0) as [Hk|Hk].
  { unfold GetReplicas in Hin.
    destruct (Z.leb_spec k 0); [|lia].
    rewrite orb_true_r in Hin. by inversion Hin. }
  rewrite GetReplicas_spec in Hin by (done || lia).
  apply elem_of_take in Hin as (i & Hin & _).
  apply list_elem_of_lookup_2 in Hin.
  apply firstSeen_elem in Hin as [Hin _].
  pose proof (startIndex_range h (hashKey key) Hne) as Hr.
  apply (elem_of_list_to_set (C:=gset string)) in Hin.
  rewrite walk_owners in Hin by (lia || done).
  by apply elem_of_list_to_set in Hin.
Qed.

(** X5.  On a ring the program built, once a node with a non-empty
    ID is removed no lookup returns it any more, while every hash owned by
    another node keeps its owner and its place among the points. *)
Theorem RemoveNode_forgets h nodeID :
  ring_built h → nodeID ≠ "" →
  (∀ x, nodeMap (RemoveNode h nodeID) !! x ≠ Some nodeID)
  ∧ (∀ key, GetNode (RemoveNode h nodeID) key ≠ nodeID)
  ∧ (∀ key k, nodeID ∉ GetReplicas (RemoveNode h nodeID) key k)
  ∧ (∀ x o, nodeMap h !! x = Some o → o ≠ nodeID →
       nodeMap (RemoveNode h nodeID) !! x = Some o
       ∧ x ∈ nodes (RemoveNode h nodeID)).
Proof.
  intros Hb Hid. pose proof (ring_built_keys h Hb) as Hk.
  assert (∀ x, nodeMap (RemoveNode h nodeID) !! x ≠ Some nodeID) as Hgone.
  { unfold RemoveNode. cbn [nodeMap].
    apply removePoint_purges; [done|]. intros x Hx. apply Hk. eauto. }
  assert (∀ x, owner (nodeMap (RemoveNode h nodeID)) x ≠ nodeID) as Hown.
  { intros x Hx. apply owner_is in Hx; [|done]. by apply (Hgone x). }
  split_and!.
  - exact Hgone.
  - intros key. unfold GetNode.
    destruct (_ =? _); [by intros <- | apply Hown].
  - intros key k Hin. apply GetReplicas_owners in Hin.
    unfold owners in Hin. apply list_elem_of_fmap in Hin as (x & Hx & _).
    by apply (Hown x).
  - intros x o Hx Ho. unfold RemoveNode. cbn [nodeMap nodes].
    destruct (removePoint_keeps nodeID x o Ho (nodes h) [] (nodeMap h) Hx)
      as [H1 H2].
    split; [done|]. apply H2. cbn [app]. apply Hk. eauto.
Qed.

Lemma RemoveNode_forgets_witness :
  "a" ∉ GetReplicas
          (RemoveNode (AddNode (AddNode (NewHashRing 3) "a") "b") "a")
          "key-1" 2.
Proof.
  refine (proj1 (proj2 (proj2 (RemoveNode_forgets
            (AddNode (AddNode (NewHashRing 3) "a") "b") "a" _ _))) "key-1" 2).
  - repeat constructor.
  - discriminate.
Defined.

End ring_more.

Section ring_order.
Implicit Types (h : HashRing).

(** X6.  When no virtual point of [a] has the hash of a
    virtual point of [b], adding [a] then [b] and adding [b] then [a] give
    the same ring: nodes that list their peers in different orders agree
    on every lookup. *)
Theorem AddNode_comm h (a b : string) :
  Forall (fun x => x ∉ pointsOf b (replicas h)) (pointsOf a (replicas h)) →
  AddNode (AddNode h a) b = AddNode (AddNode h b) a.
Proof.
  intros Hdisj.
  assert (replicas (AddNode (AddNode h a) b)
          = replicas (AddNode (AddNode h b) a)) as Hr
    by (by rewrite !AddNode_replicas).
  assert (nodes (AddNode (AddNode h a) b)
          = nodes (AddNode (AddNode h b) a)) as Hn.
  { rewrite (AddNode_nodes_eq (AddNode h a) b). symmetry.
    apply sortInts_unique; [apply AddNode_sorted|].
    rewrite (AddNode_nodes (AddNode h b) a), !AddNode_replicas.
    rewrite (AddNode_nodes h b), (AddNode_nodes h a).
    rewrite <- !app_assoc. apply Permutation_app_head, Permutation_app_comm. }
  assert (nodeMap (AddNode (AddNode h a) b)
          = nodeMap (AddNode (AddNode h b) a)) as Hm.
  { apply map_eq. intros x.
    rewrite !AddNode_nodeMap, !AddNode_replicas.
    destruct (decide (x ∈ pointsOf b (replicas h))) as [Hb|Hb];
      destruct (decide (x ∈ pointsOf a (replicas h))) as [Ha|Ha]; try done.
    exfalso. by apply (proj1 (Forall_forall _ _) Hdisj x Ha). }
  destruct (AddNode (AddNode h a) b), (AddNode (AddNode h b) a).
  cbn in Hr, Hn, Hm. by subst.
Qed.

Lemma AddNode_comm_witness :
  AddNode (AddNode (NewHashRing 3) "node1:8081") "node2:8082"
  = AddNode (AddNode (NewHashRing 3) "node2:8082") "node1:8081".
Proof.
  apply AddNode_comm.
  apply (bool_decide_unpack _). vm_compute. exact I.
Defined.

(** X7.  On any ring, sorted or not, [GetReplicas]
    returns the empty list exactly when the ring has no point or the count
    asked for is not positive; otherwise it returns pairwise distinct IDs,
    each the owner of a point, as many as asked for or, when the ring has
    fewer distinct owners, all of them. *)
Theorem GetReplicas_shape h key (k : Z) :
  (GetReplicas h key k = [] ↔ nodes h = [] ∨ k ≤ 0)
  ∧ NoDup (GetReplicas h key k)
  ∧ (∀ id, id ∈ GetReplicas h key k → id ∈ owners h)
  ∧ (nodes h ≠ [] → 1 ≤ k →
     length (GetReplicas h key k)
     = Nat.min (Z.to_nat k) (size (list_to_set (owners h) : gset string))).
Proof.
  assert (nodes h ≠ [] → 1 ≤ k →
          GetReplicas h key k
          = take (Z.to_nat k)
              (firstSeen ∅ (walk h (startIndex h (hashKey key))))) as Hspec
    by apply GetReplicas_spec.
  split_and!.
  - split.
    + intros Hnil.
      destruct (decide (nodes h = [])) as [|Hne]; [by left|].
      destruct (Z.le_gt_cases k 0) as [|Hk]; [by right|]. exfalso.
      rewrite Hspec in Hnil by (done || lia).
      pose proof (startIndex_range h (hashKey key) Hne) as Hr.
      destruct (walk_head h _ Hr) as [rest Hw]. rewrite Hw in Hnil.
      cbn [firstSeen] in Hnil.
      destruct (decide (_ ∈ ∅)) as [Hin|_]; [set_solver|].
      replace (Z.to_nat k) with (S (Z.to_nat (k - 1))) in Hnil by lia.
      discriminate Hnil.
    + intros [Hnil|Hk]; unfold GetReplicas.
      * unfold len. rewrite Hnil. done.
      * destruct (Z.leb_spec k 0); [|lia]. by rewrite orb_true_r.
  - destruct (decide (nodes h = [])) as [Hnil|Hne].
    { unfold GetReplicas, len. rewrite Hnil. cbn. constructor. }
    destruct (Z.le_gt_cases k 0) as [Hk|Hk].
    { unfold GetReplicas. destruct (Z.leb_spec k 0); [|lia].
      rewrite orb_true_r. constructor. }
    rewrite Hspec by (done || lia).
    eapply sublist_NoDup; [apply firstSeen_NoDup | apply sublist_take].
  - intros id. apply GetReplicas_owners.
  - intros Hne Hk. rewrite Hspec by done.
    rewrite length_take, firstSeen_length.
    replace (list_to_set (walk h (startIndex h (hashKey key))) ∖ ∅
             : gset string)
      with (list_to_set (walk h (startIndex h (hashKey key))) : gset string)
      by set_solver.
    pose proof (startIndex_range h (hashKey key) Hne) as Hr.
    rewrite walk_owners by (lia || done). done.
Qed.

End ring_order.

(** ** The cluster registry and the health monitor *)

Section registry.
Implicit Types (h : HashRing) (c : Cluster).

Lemma NewCluster_Nodes selfID (nodeAddrs : list string) r a :
  Nodes (NewCluster selfID nodeAddrs r) !! a
  = if decide (a ∈ nodeAddrs) then Some (mkNode a a) else None.
Proof.
  unfold NewCluster. cbn [Nodes].
  assert (∀ (m : gmap string Node) h0,
    (foldl (fun (st : gmap string Node * HashRing) addr =>
              (<[addr := mkNode addr addr]> st.1, AddNode st.2 addr))
           (m, h0) nodeAddrs).1 !! a
    = if decide (a ∈ nodeAddrs) then Some (mkNode a a) else m !! a) as Hgen.
  { induction nodeAddrs as [|x l IH]; intros m h0; cbn [foldl fst snd].
    { rewrite decide_False; [done|]. by intros H; inversion H. }
    rewrite IH. destruct (decide (a ∈ l)) as [Hin|Hnin].
    - rewrite decide_True by (by right). done.
    - destruct (decide (x = a)) as [->|Hne].
      + rewrite lookup_insert_eq, decide_True by (by left). done.
      + rewrite lookup_insert_ne by done.
        rewrite decide_False; [done|]. rewrite elem_of_cons. naive_solver. }
  rewrite Hgen. by rewrite lookup_empty.
Qed.

Lemma foldl_AddNode_owned (known : list string) : ∀ (addrs : list string) h,
  (∀ x, x ∈ nodes h → ∃ a, a ∈ known ∧ nodeMap h !! x = Some a) →
  (∀ a, a ∈ addrs → a ∈ known) →
  ∀ x, x ∈ nodes (foldl AddNode h addrs) →
       ∃ a, a ∈ known ∧ nodeMap (foldl AddNode h addrs) !! x = Some a.
Proof.
  induction addrs as [|b l IH]; intros h Hinv Hsub; cbn [foldl]; [done|].
  apply IH; [|intros a Ha; apply Hsub; by right].
  intros x Hx. rewrite AddNode_nodeMap.
  rewrite (AddNode_nodes h b), elem_of_app in Hx.
  destruct (decide (x ∈ pointsOf b (replicas h))) as [Hp|Hp].
  - exists b. split; [apply Hsub; by left | done].
  - destruct Hx as [Hx|Hx]; [by apply Hinv | done].
Qed.

Lemma foldl_AddNode_length : ∀ (addrs : list string) h,
  length (nodes (foldl AddNode h addrs))
  = (length (nodes h) + Z.to_nat (replicas h) * length addrs)%nat.
Proof.
  induction addrs as [|b l IH]; intros h; cbn [foldl length]; [lia|].
  rewrite IH, AddNode_replicas, (AddNode_nodes h b), length_app.
  unfold pointsOf. rewrite !length_fmap, length_seq. lia.
Qed.

Lemma GetReplicas_head h key k :
  nodes h ≠ [] → 1 ≤ k → head (GetReplicas h key k) = Some (GetNode h key).
Proof.
  intros Hne Hk. rewrite GetReplicas_spec by done.
  pose proof (startIndex_range h (hashKey key) Hne) as Hr.
  destruct (walk_head h _ Hr) as [rest ->].
  cbn [firstSeen]. destruct (decide (_ ∈ ∅)) as [Hin|_]; [set_solver|].
  replace (Z.to_nat k) with (S (Z.to_nat (k - 1))) by lia.
  cbn [take head]. f_equal. unfold GetNode.
  destruct (Z.eqb_spec (len h) 0) as [H0|]; [|done].
  unfold len in H0. destruct (nodes h); [done | cbn in H0; lia].
Qed.

Lemma omap_all {A B} (f : A → option B) (g : A → B) (l : list A) :
  (∀ x, x ∈ l → f x = Some (g x)) → omap f l = g <$> l.
Proof.
  induction l as [|x l IH]; intros H; [done|].
  cbn [omap list_omap fmap list_fmap].
  rewrite (H x) by (by left). rewrite IH; [done|].
  intros y Hy. apply H. by right.
Qed.

Lemma NewCluster_ids selfID (nodeAddrs : list string) r key k id :
  id ∈ GetReplicas (Ring (NewCluster selfID nodeAddrs r)) key k →
  id ∈ nodeAddrs.
Proof.
  intros Hid. apply GetReplicas_owners in Hid. unfold owners in Hid.
  apply list_elem_of_fmap in Hid as (x & -> & Hx).
  rewrite NewCluster_Ring in Hx |- *.
  destruct (foldl_AddNode_owned nodeAddrs nodeAddrs (NewHashRing r))
    with (x := x) as (a & Ha & Hm); try done.
  { intros y Hy. cbn in Hy. by inversion Hy. }
  unfold owner. by rewrite Hm.
Qed.

Lemma NewCluster_resolves selfID (nodeAddrs : list string) r key k :
  GetResponsibleNodes (NewCluster selfID nodeAddrs r) key k
  = (fun id => mkNode id id)
      <$> GetReplicas (Ring (NewCluster selfID nodeAddrs r)) key k.
Proof.
  unfold GetResponsibleNodes. apply omap_all. intros id Hid.
  rewrite NewCluster_Nodes.
  by rewrite decide_True by by apply NewCluster_ids in Hid.
Qed.

Lemma NewCluster_length selfID (nodeAddrs : list string) r :
  length (nodes (Ring (NewCluster selfID nodeAddrs r)))
  = (Z.to_nat r * length nodeAddrs)%nat.
Proof. rewrite NewCluster_Ring, foldl_AddNode_length. cbn. lia. Qed.

(** X8.  In the cluster [NewCluster] builds, the node table holds exactly
    the configured addresses, each as its own ID and address; the ring has
    [replicas] points per configured address; every ID a lookup returns is
    a configured address, so [GetResponsibleNodes] resolves all of them and
    skips none; and on a ring with points the single-node query
    [GetResponsibleNode] agrees with the first of the replica list. *)
Theorem NewCluster_responsible selfID (nodeAddrs : list string) r key k :
  let c := NewCluster selfID nodeAddrs r in
  (∀ a, Nodes c !! a
        = if decide (a ∈ nodeAddrs) then Some (mkNode a a) else None)
  ∧ length (nodes (Ring c)) = (Z.to_nat r * length nodeAddrs)%nat
  ∧ (∀ id, id ∈ GetReplicas (Ring c) key k → id ∈ nodeAddrs)
  ∧ GetResponsibleNodes c key k
    = (fun id => mkNode id id) <$> GetReplicas (Ring c) key k
  ∧ (nodes (Ring c) ≠ [] → 1 ≤ k →
     head (GetResponsibleNodes c key k) = GetResponsibleNode c key).
Proof.
  intros c. split_and!.
  - intros a. apply NewCluster_Nodes.
  - apply NewCluster_length.
  - intros id. apply NewCluster_ids.
  - apply NewCluster_resolves.
  - intros Hne Hk. unfold c. rewrite NewCluster_resolves. fold c.
    pose proof (GetReplicas_head (Ring c) key k Hne Hk) as Hhead.
    destruct (GetReplicas (Ring c) key k) as [|id ids] eqn:Hl; [done|].
    cbn [head] in Hhead. injection Hhead as ->.
    cbn [fmap list_fmap head]. unfold GetResponsibleNode.
    pose proof (NewCluster_Nodes selfID nodeAddrs r (GetNode (Ring c) key))
      as HN. fold c in HN. rewrite HN.
    rewrite decide_True; [done|].
    apply (NewCluster_ids selfID nodeAddrs r key k). fold c.
    rewrite Hl. by left.
Qed.

(** *** The monitor *)

Lemma probe_fold selfID (alive : Node → bool) (ns : gmap string Node) :
  ∀ tr id,
    status
      (map_fold (fun id node tr =>
                   if decide (id = selfID) then MarkNodeHealth tr id true
                   else MarkNodeHealth tr id (alive node)) tr ns) !! id
    = match ns !! id with
      | Some node => Some (if decide (id = selfID) then true else alive node)
      | None => status tr !! id
      end.
Proof.
  intros tr.
  apply (map_fold_weak_ind
           (fun r (m : gmap string Node) =>
              ∀ id, status r !! id
                    = match m !! id with
                      | Some node =>
                          Some (if decide (id = selfID) then true
                                else alive node)
                      | None => status tr !! id
                      end)).
  - intros id. by rewrite lookup_empty.
  - intros i node m r Hi IH id.
    destruct (decide (i = id)) as [->|Hne].
    + rewrite lookup_insert_eq.
      destruct (decide (id = selfID)); cbn [MarkNodeHealth status];
        by rewrite lookup_insert_eq.
    + rewrite lookup_insert_ne by done. rewrite <- IH.
      destruct (decide (i = selfID)); cbn [MarkNodeHealth status];
        by rewrite lookup_insert_ne.
Qed.

(** X9.  After one turn of the monitor's loop the
    node itself is marked healthy, every other node of the table is marked
    with the outcome of its heartbeat, and IDs outside the table keep the
    mark they had; so the replica loop of the handlers then keeps a node of
    the table exactly when it is the node itself or answered its
    heartbeat. *)
Theorem probeRound_marks c selfID (alive : Node → bool) tr :
  Health c = Some tr →
  ∃ tr',
    probeRound c selfID alive = mkCluster (Nodes c) (Ring c) (SelfID c) (Some tr')
    ∧ (∀ id node, Nodes c !! id = Some node →
         status tr' !! id
         = Some (if decide (id = selfID) then true else alive node))
    ∧ (∀ id, Nodes c !! id = None → status tr' !! id = status tr !! id)
    ∧ (∀ node, Nodes c !! ID node = Some node →
         treatedHealthy (probeRound c selfID alive) node
         = if decide (ID node = selfID) then true else alive node).
Proof.
  intros Htr. unfold probeRound. rewrite Htr.
  eexists. split; [reflexivity|].
  split_and!.
  - intros id node Hn. by rewrite probe_fold, Hn.
  - intros id Hn. by rewrite probe_fold, Hn.
  - intros node Hn. unfold treatedHealthy, IsNodeHealthy. cbn [Health].
    rewrite probe_fold, Hn. by destruct (decide _), (alive node).
Qed.

Lemma probeRound_marks_witness :
  ∃ tr',
    probeRound (StartHealthMonitor (NewCluster "a" ["a"; "b"] 1)) "a"
      (fun _ => false)
    = mkCluster (Nodes (StartHealthMonitor (NewCluster "a" ["a"; "b"] 1)))
        (Ring (StartHealthMonitor (NewCluster "a" ["a"; "b"] 1)))
        (SelfID (StartHealthMonitor (NewCluster "a" ["a"; "b"] 1)))
        (Some tr')
    ∧ (∀ id node,
         Nodes (StartHealthMonitor (NewCluster "a" ["a"; "b"] 1)) !! id
         = Some node →
         status tr' !! id
         = Some (if decide (id = "a") then true else false))
    ∧ (∀ id,
         Nodes (StartHealthMonitor (NewCluster "a" ["a"; "b"] 1)) !! id = None →
         status tr' !! id = status NewNodeHealthTracker !! id)
    ∧ (∀ node,
         Nodes (StartHealthMonitor (NewCluster "a" ["a"; "b"] 1)) !! ID node
         = Some node →
         treatedHealthy
           (probeRound (StartHealthMonitor (NewCluster "a" ["a"; "b"] 1)) "a"
              (fun _ => false)) node
         = if decide (ID node = "a") then true else false).
Proof.
  apply (probeRound_marks (StartHealthMonitor (NewCluster "a" ["a"; "b"] 1))
           "a" (fun _ => false) NewNodeHealthTracker).
  reflexivity.
Defined.

Lemma replicaLoop_none c selfID (replicas : list Node) :
  (∀ node, treatedHealthy c node = false) →
  (replicaLoop c selfID replicas).1 = [].
Proof.
  intros Hall. rewrite replicaLoop_spec. cbn [fst].
  induction replicas as [|n l IH]; [done|].
  rewrite filter_cons, Hall. cbn. exact IH.
Qed.

(** X10.  Between [StartHealthMonitor] creating the
    tracker and the first turn of its loop the map is empty, so every node,
    the node itself included, counts as unhealthy: each of the three
    handlers answers 503 to every request with a key, stores nothing and
    sends nothing. *)
Theorem monitor_start_refuses c selfID K cache :
  Health c = None →
  (∀ node, treatedHealthy (StartHealthMonitor c) node = false)
  ∧ (∀ req tReq tSet, Key req ≠ "" →
       handleSet (StartHealthMonitor c) selfID K cache (Some req) tReq tSet
       = mkOutcome (httpError "no healthy replicas" StatusServiceUnavailable)
           cache [])
  ∧ (∀ key now peer, key ≠ "" →
       handleGet (StartHealthMonitor c) selfID K cache key now peer
       = (GetError (httpError "no healthy replicas" StatusServiceUnavailable),
          cache))
  ∧ (∀ NewRequest key, key ≠ "" →
       handleDelete NewRequest (StartHealthMonitor c) selfID K cache key
       = Returned
           (mkOutcome
              (httpError "no healthy replicas" StatusServiceUnavailable)
              cache [])).
Proof.
  intros Hnone.
  assert (∀ node, treatedHealthy (StartHealthMonitor c) node = false) as Hall.
  { intros node. unfold StartHealthMonitor. rewrite Hnone.
    unfold treatedHealthy, IsNodeHealthy. cbn. by rewrite lookup_empty. }
  split_and!.
  - exact Hall.
  - intros req tReq tSet Hk. rewrite handleSet_unfold by done.
    rewrite replicaLoop_none by done. done.
  - intros key now peer Hk. unfold handleGet.
    rewrite decide_False by done. rewrite replicaLoop_none by done. done.
  - intros NewRequest key Hk. unfold handleDelete.
    rewrite decide_False by done.
    destruct (replicaLoop _ _ _) as [healthy isR] eqn:Hl.
    assert (healthy = []) as ->.
    { change healthy with (healthy, isR).1. rewrite <- Hl.
      by apply replicaLoop_none. }
    done.
Qed.

Lemma monitor_start_refuses_witness :
  handleDelete (fun _ => true)
    (StartHealthMonitor (NewCluster "a" ["a"; "b"] 1)) "a" 2 NewCache "k"
  = Returned
      (mkOutcome (httpError "no healthy replicas" StatusServiceUnavailable)
         NewCache []).
Proof.
  refine (proj2 (proj2 (proj2 (monitor_start_refuses
            (NewCluster "a" ["a"; "b"] 1) "a" 2 NewCache _)))
            (fun _ => true) "k" _).
  - reflexivity.
  - discriminate.
Defined.

End registry.

(** ** More on the handlers *)

Section handlers_more.
Implicit Types (clust : Cluster) (cache : Cache) (req : SetRequest).

Lemma Cache_Set_rejected cache key v ttl ts now :
  (Cache_Set cache key v ttl ts now).2 = false →
  (Cache_Set cache key v ttl ts now).1 = cache.
Proof.
  unfold Cache_Set.
  destruct (cache !! key) as [e|]; [destruct (_ <=? _)|]; cbn; done.
Qed.

Lemma replicaLoop_healthy clust selfID (replicas : list Node) node :
  node ∈ (replicaLoop clust selfID replicas).1 →
  node ∈ replicas ∧ treatedHealthy clust node = true.
Proof.
  rewrite replicaLoop_spec. cbn [fst]. rewrite list_elem_of_filter.
  intros [H1 H2]. split; [done|]. by destruct (treatedHealthy clust node).
Qed.

(** X11.  Whatever the request, [handleSet] forwards
    only to healthy replicas of the key other than the node itself, and
    every forwarded copy is the request with the assigned timestamp; a
    reply other than 204 leaves the store as it was and sends nothing; and
    the node never both forwards and stores: it stores only when it is a
    replica for the key, and then forwards nothing. *)
Theorem handleSet_effects clust selfID K cache (body : option SetRequest)
    tReq tSet :
  let out := handleSet clust selfID K cache body tReq tSet in
  (∀ node m, (node, m) ∈ sent out →
     ∃ req, body = Some req
       ∧ ID node ≠ selfID
       ∧ node ∈ GetResponsibleNodes clust (Key req) K
       ∧ treatedHealthy clust node = true
       ∧ m = withStamp req (stampOf req tReq))
  ∧ (StatusCode (reply out) ≠ StatusNoContent →
     store out = cache ∧ sent out = [])
  ∧ (sent out ≠ [] → store out = cache)
  ∧ (store out ≠ cache →
     ∃ req, body = Some req
       ∧ selfID ∈ ID <$> GetResponsibleNodes clust (Key req) K).
Proof.
  intros out. unfold out.
  destruct body as [req|]; [|by cbn; split_and!; try done; set_solver].
  destruct (decide (Key req = "")) as [Hk|Hk].
  { unfold handleSet. rewrite decide_True by done.
    cbn; split_and!; try done; set_solver. }
  rewrite handleSet_unfold by done.
  set (loop := replicaLoop clust selfID
                 (GetResponsibleNodes clust (Key req) K)).
  destruct (decide (length loop.1 = 0%nat)).
  { cbn; split_and!; try done; set_solver. }
  destruct loop.2 eqn:Hrep; cbn [negb].
  - destruct (Cache_Set _ _ _ _ _ _).2 eqn:Hset; cbn [reply store sent].
    + split_and!; try done.
      * intros node m Hin. by inversion Hin.
      * intros _. exists req. split; [done|].
        unfold loop in Hrep. rewrite replicaLoop_spec in Hrep.
        cbn [snd] in Hrep. by apply bool_decide_eq_true in Hrep.
    + rewrite Cache_Set_rejected by done.
      split_and!; try done. intros node m Hin. by inversion Hin.
  - cbn [reply store sent]. split_and!; try done.
    intros node m Hin.
    apply list_elem_of_fmap in Hin as (node' & [= -> ->] & Hn).
    apply list_elem_of_filter in Hn as [Hne Hn].
    apply replicaLoop_healthy in Hn as [Hn Hh].
    exists req. done.
Qed.

(** The forwarding loop of [handleDelete] when [http.NewRequest] accepts
    every URL, and when it refuses one. *)
Lemma deleteLoop_all NewRequest selfID key (l : list Node) :
  Forall (fun node => ID node ≠ selfID) l →
  Forall (fun node => NewRequest (deleteURL node key) = true) l →
  deleteLoop NewRequest selfID key l
  = ((fun node => (node, deleteURL node key)) <$> l, true).
Proof.
  induction 1 as [|node l Hne _ IH]; intros Hok; [done|].
  apply Forall_cons in Hok as [Hnode Hok].
  cbn [deleteLoop]. rewrite decide_True by done.
  rewrite Hnode, (IH Hok). done.
Qed.

Lemma deleteLoop_refused NewRequest selfID key (before after : list Node)
    node :
  Forall (fun n => ID n ≠ selfID) (before ++ [node]) →
  Forall (fun n => NewRequest (deleteURL n key) = true) before →
  NewRequest (deleteURL node key) = false →
  deleteLoop NewRequest selfID key (before ++ node :: after)
  = ((fun n => (n, deleteURL n key)) <$> before, false).
Proof.
  induction before as [|n before IH]; intros Hne Hok Hbad.
  - apply Forall_cons in Hne as [Hne _].
    cbn [app deleteLoop]. rewrite decide_True by done. by rewrite Hbad.
  - apply Forall_cons in Hne as [Hn Hne].
    apply Forall_cons in Hok as [Hnok Hok].
    cbn [app deleteLoop]. rewrite decide_True by done.
    rewrite Hnok, (IH Hne Hok Hbad). done.
Qed.

(** On a node that is not among the replicas, no healthy replica is the
    node itself. *)
Lemma replicaLoop_others clust selfID (replicas : list Node) :
  (replicaLoop clust selfID replicas).2 = false →
  Forall (fun node => ID node ≠ selfID) (replicaLoop clust selfID replicas).1.
Proof.
  intros Hrep. apply Forall_forall. intros node Hin Heq.
  apply replicaLoop_healthy in Hin as [Hin _].
  rewrite replicaLoop_spec in Hrep. cbn [snd] in Hrep.
  apply bool_decide_eq_false in Hrep. apply Hrep.
  rewrite <- Heq. by apply list_elem_of_fmap_2.
Qed.

(** X13.  For a key with at least one healthy replica, [handleDelete] on a
    replica removes the entry from its own store, sends nothing and
    answers 204.  On any other node it leaves the store alone and walks
    the healthy replicas in order, handing the HTTP client one DELETE per
    replica, built from the URL [http://<addr>/delete?key=<key>] with the
    key pasted in unescaped.  When [http.NewRequest] accepts every one of
    these URLs the handler answers 204; at the first URL it refuses, the
    error is dropped and the client call panics on the nil request: the
    replicas before it have been sent their DELETE, nothing more is sent
    and no reply is written. *)
Theorem handleDelete_roles NewRequest clust selfID K cache key :
  let loop := replicaLoop clust selfID (GetResponsibleNodes clust key K) in
  let call := fun node : Node => (node, deleteURL node key) in
  key ≠ "" →
  loop.1 ≠ [] →
  (loop.2 = true →
   handleDelete NewRequest clust selfID K cache key
   = Returned
       (mkOutcome (writeHeader StatusNoContent) (delete key cache) []))
  ∧ (loop.2 = false →
     (Forall (fun node => NewRequest (deleteURL node key) = true) loop.1 →
      handleDelete NewRequest clust selfID K cache key
      = Returned
          (mkOutcome (writeHeader StatusNoContent) cache (call <$> loop.1)))
     ∧ (∀ before node after,
          loop.1 = before ++ node :: after →
          Forall (fun n => NewRequest (deleteURL n key) = true) before →
          NewRequest (deleteURL node key) = false →
          handleDelete NewRequest clust selfID K cache key
          = Panicked cache (call <$> before))).
Proof.
  intros loop call Hk Hne.
  pose proof (replicaLoop_others clust selfID
                (GetResponsibleNodes clust key K)) as Hothers.
  fold loop in Hothers.
  unfold handleDelete. rewrite decide_False by done.
  fold loop. destruct loop as [healthy isR]. cbn [fst snd] in *.
  destruct (decide (length healthy = 0%nat)) as [H0|_].
  { by apply nil_length_inv in H0. }
  split; intros ->; cbn [negb]; [done|].
  specialize (Hothers eq_refl). split.
  - intros Hok. by rewrite deleteLoop_all.
  - intros before node after -> Hok Hbad.
    rewrite (deleteLoop_refused NewRequest selfID key before after node);
      [done| |done|done].
    rewrite cons_middle, (assoc_L (++)) in Hothers.
    by apply Forall_app in Hothers as [? _].
Qed.

Lemma handleDelete_roles_witness :
  handleDelete (fun _ => true) (composeView "node1:8081") "node1:8081" 2
    {["key-1" := mkItem "v" 0 1]} "key-1"
  = Returned (mkOutcome (writeHeader StatusNoContent)
                (delete "key-1" {["key-1" := mkItem "v" 0 1]}) [])
  ∧ handleDelete (fun _ => true) (composeView "node3:8083") "node3:8083" 2
      NewCache "key-1"
    = Returned
        (mkOutcome (writeHeader StatusNoContent) NewCache
           [(mkNode "node1:8081" "node1:8081",
             "http://node1:8081/delete?key=key-1");
            (mkNode "node2:8082" "node2:8082",
             "http://node2:8082/delete?key=key-1")])
  ∧ handleDelete noCTLByte (composeView "node3:8083") "node3:8083" 2
      NewCache ctlKey
    = Panicked NewCache [].
Proof.
  split_and!.
  - refine (proj1 (handleDelete_roles (fun _ => true)
              (composeView "node1:8081") "node1:8081" 2
              {["key-1" := mkItem "v" 0 1]} "key-1" _ _) _).
    + discriminate.
    + vm_compute. discriminate.
    + vm_compute. reflexivity.
  - refine (eq_trans
              (proj1 (proj2 (handleDelete_roles (fun _ => true)
                 (composeView "node3:8083") "node3:8083" 2 NewCache "key-1"
                 _ _) _) _) _).
    + discriminate.
    + vm_compute. discriminate.
    + vm_compute. reflexivity.
    + apply Forall_forall. reflexivity.
    + vm_compute. reflexivity.
  - refine (proj2 (proj2 (handleDelete_roles noCTLByte
              (composeView "node3:8083") "node3:8083" 2 NewCache ctlKey
              _ _) _)
              [] (mkNode "node2:8082" "node2:8082")
              [mkNode "node1:8081" "node1:8081"] _ _ _).
    + discriminate.
    + vm_compute. discriminate.
    + vm_compute. reflexivity.
    + vm_compute. reflexivity.
    + constructor.
    + vm_compute. reflexivity.
Defined.

(** *** Reads *)

Lemma Cache_Get_again cache key now :
  (Cache_Get cache key now).2 = None →
  (Cache_Get (Cache_Get cache key now).1 key now).2 = None.
Proof.
  unfold Cache_Get at 1 3.
  destruct (cache !! key) as [e|] eqn:He.
  - destruct (_ && _) eqn:Hexp; cbn [fst snd]; [|done].
    intros _. by rewrite Cache_Get_absent by apply lookup_delete_eq.
  - cbn [fst snd]. intros _. by rewrite Cache_Get_absent.
Qed.

Lemma misses_after selfID cache key now peer node :
  (Cache_Get cache key now).2 = None →
  misses selfID (Cache_Get cache key now).1 key now peer node
  ↔ misses selfID cache key now peer node.
Proof.
  intros Hmiss. unfold misses. destruct (decide (ID node = selfID)); [|done].
  split; [done|]. intros _. by apply Cache_Get_again.
Qed.

Lemma getLoop_not_found selfID key now peer : ∀ healthy cache,
  (getLoop selfID cache key now peer healthy).1
  = GetError (httpError "not found" StatusNotFound)
  ↔ Forall (misses selfID cache key now peer) healthy.
Proof.
  induction healthy as [|node rest IH]; intros cache; cbn [getLoop].
  { split; [constructor | done]. }
  rewrite Forall_cons. unfold misses at 1.
  destruct (decide (ID node = selfID)).
  - destruct (Cache_Get cache key now) as [cache' [v|]] eqn:Hget; cbn [fst snd].
    + split; [done | by intros [? _]].
    + rewrite IH.
      assert ((Cache_Get cache key now).2 = None) as Hm by by rewrite Hget.
      replace cache' with (Cache_Get cache key now).1 by by rewrite Hget.
      split.
      * intros Hall. split; [done|].
        eapply Forall_impl; [exact Hall|]. intros n. by apply misses_after.
      * intros [_ Hall].
        eapply Forall_impl; [exact Hall|]. intros n. by apply misses_after.
  - destruct (peer node) as [body|]; cbn [fst].
    + split; [done | by intros [? _]].
    + rewrite IH. naive_solver.
Qed.

(** X14.  For a key with at least one healthy replica,
    [handleGet] answers 404 exactly when every healthy replica misses: the
    node itself has no live entry and no peer answers 200. *)
Theorem handleGet_not_found_iff clust selfID K cache key now peer :
  key ≠ "" →
  (replicaLoop clust selfID (GetResponsibleNodes clust key K)).1 ≠ [] →
  (handleGet clust selfID K cache key now peer).1
  = GetError (httpError "not found" StatusNotFound)
  ↔ Forall (misses selfID cache key now peer)
      (replicaLoop clust selfID (GetResponsibleNodes clust key K)).1.
Proof.
  intros Hk Hne. unfold handleGet. rewrite decide_False by done.
  destruct (decide (length _ = 0%nat)) as [H0|_].
  { by apply nil_length_inv in H0. }
  apply getLoop_not_found.
Qed.

End handlers_more.

Section reads_more.
Implicit Types (clust : Cluster) (cache : Cache).

Lemma handleGet_not_found_iff_witness :
  (handleGet (probeRound (StartHealthMonitor (NewCluster "a" ["a"] 1)) "a"
                (fun _ => true)) "a" 1 NewCache "k" 0 (fun _ => None)).1
  = GetError (httpError "not found" StatusNotFound)
  ↔ Forall (misses "a" NewCache "k" 0 (fun _ => None))
      (replicaLoop
         (probeRound (StartHealthMonitor (NewCluster "a" ["a"] 1)) "a"
            (fun _ => true)) "a"
         (GetResponsibleNodes
            (probeRound (StartHealthMonitor (NewCluster "a" ["a"] 1)) "a"
               (fun _ => true)) "k" 1)).1.
Proof.
  apply handleGet_not_found_iff.
  - discriminate.
  - vm_compute. discriminate.
Defined.

Lemma Cache_Get_again_store cache key now :
  (Cache_Get cache key now).2 = None →
  (Cache_Get (Cache_Get cache key now).1 key now).1
  = (Cache_Get cache key now).1.
Proof.
  destruct (cache !! key) as [e|] eqn:He.
  - destruct (Z.ltb_spec 0 (Expiration e)) as [H0|H0];
      [destruct (Z.ltb_spec (Expiration e) (Unix now)) as [H1|H1]|].
    + rewrite (Cache_Get_expired cache key now e) by done. cbn [fst snd].
      intros _. by rewrite Cache_Get_absent by apply lookup_delete_eq.
    + rewrite (Cache_Get_live cache key now e) by (done || by right).
      done.
    + rewrite (Cache_Get_live cache key now e) by (done || by left).
      done.
  - rewrite (Cache_Get_absent cache key now) by done. cbn [fst snd].
    intros _. by rewrite Cache_Get_absent.
Qed.

Lemma getLoop_skip selfID key now peer (pre : list Node) : ∀ cache rest,
  Forall (misses selfID cache key now peer) pre →
  ∃ cache',
    getLoop selfID cache key now peer (pre ++ rest)
    = getLoop selfID cache' key now peer rest
    ∧ (cache' = cache ∨ cache' = (Cache_Get cache key now).1)
    ∧ (selfID ∉ ID <$> pre → cache' = cache).
Proof.
  induction pre as [|node pre IH]; intros cache rest Hall; cbn [app getLoop].
  { exists cache. split_and!; auto. }
  apply Forall_cons in Hall as [Hm Hall]. unfold misses in Hm.
  destruct (decide (ID node = selfID)) as [Hself|Hother].
  - destruct (Cache_Get cache key now) as [c1 [v|]] eqn:Hget;
      cbn [snd] in Hm; [done|].
    assert ((Cache_Get cache key now).2 = None) as Hnone by by rewrite Hget.
    assert (c1 = (Cache_Get cache key now).1) as Hc1 by by rewrite Hget.
    destruct (IH c1 rest) as (cache' & Heq & Hor & _).
    { eapply Forall_impl; [exact Hall|]. intros n Hn.
      rewrite Hc1. by apply misses_after. }
    exists cache'. split_and!; [done| |].
    + right. destruct Hor as [->| ->]; [done|].
      rewrite Hc1. by apply Cache_Get_again_store.
    + intros Hnot. exfalso. apply Hnot. cbn. rewrite Hself. by left.
  - rewrite Hm. destruct (IH cache rest Hall) as (cache' & Heq & Hor & Hsame).
    exists cache'. split_and!; [done | done |].
    intros Hnot. apply Hsame. intros Hin. apply Hnot. cbn. by right.
Qed.

(** X15.  [handleGet] answers with the first healthy
    replica, in ring order, that has the key: when every replica before it
    misses, a peer's 200 body is passed on as it is, and a live local entry
    is answered with its value and its timestamp, with the store left as it
    was.  Replicas after the first hit are not asked. *)
Theorem handleGet_first_hit clust selfID K cache key now peer
    (pre post : list Node) node :
  key ≠ "" →
  (replicaLoop clust selfID (GetResponsibleNodes clust key K)).1
  = pre ++ node :: post →
  Forall (misses selfID cache key now peer) pre →
  (ID node ≠ selfID → ∀ body, peer node = Some body →
     (handleGet clust selfID K cache key now peer).1 = GetPeer body)
  ∧ (ID node = selfID → ∀ e, cache !! key = Some e →
       Expiration e ≤ 0 ∨ Unix now ≤ Expiration e →
       handleGet clust selfID K cache key now peer
       = (GetLocal key (Value e) (Some (LastUpdated e)), cache)).
Proof.
  intros Hk Hl Hpre. unfold handleGet. rewrite decide_False by done.
  rewrite Hl.
  destruct (decide (length (pre ++ node :: post) = 0%nat)) as [H0|_].
  { rewrite length_app in H0. cbn in H0. lia. }
  destruct (getLoop_skip selfID key now peer pre cache (node :: post) Hpre)
    as (cache' & -> & Hor & Hsame).
  cbn [getLoop]. split.
  - intros Hother body Hbody. rewrite decide_False by done.
    by rewrite Hbody.
  - intros Hself e He Hlive. rewrite decide_True by done.
    pose proof (Cache_Get_live cache key now e He Hlive) as Hget.
    assert (cache' = cache) as ->.
    { destruct Hor as [->| ->]; [done|]. by rewrite Hget. }
    rewrite Hget, He. done.
Qed.

Lemma handleGet_first_hit_witness :
  (handleGet (composeView "node3:8083") "node3:8083" 2 NewCache "key-1" 0
     (fun node => if decide (ID node = "node2:8082") then Some "body"
                  else None)).1
  = GetPeer "body".
Proof.
  refine (proj1 (handleGet_first_hit (composeView "node3:8083") "node3:8083"
                   2 NewCache "key-1" 0 _
                   [mkNode "node1:8081" "node1:8081"] []
                   (mkNode "node2:8082" "node2:8082") _ _ _) _ "body" _).
  - discriminate.
  - vm_compute. reflexivity.
  - repeat constructor.
  - cbn [ID]. discriminate.
  - reflexivity.
Defined.

Lemma getLoop_store_cases selfID cache key now peer :
  ∀ (healthy : list Node) c0,
    (c0 = cache ∨
     (c0 = delete key cache
      ∧ ∃ e, cache !! key = Some e
             ∧ 0 < Expiration e ∧ Expiration e < Unix now)) →
    (getLoop selfID c0 key now peer healthy).2 = cache
    ∨ ((getLoop selfID c0 key now peer healthy).2 = delete key cache
       ∧ ∃ e, cache !! key = Some e
              ∧ 0 < Expiration e ∧ Expiration e < Unix now).
Proof.
  induction healthy as [|node rest IH]; intros c0 Hc0; cbn [getLoop].
  { done. }
  destruct (decide (ID node = selfID)) as [Hself|Hother].
  - assert ((Cache_Get c0 key now).1 = cache
            ∨ ((Cache_Get c0 key now).1 = delete key cache
               ∧ ∃ e, cache !! key = Some e
                      ∧ 0 < Expiration e ∧ Expiration e < Unix now))
      as Hstep.
    { destruct Hc0 as [->|[-> Hex]].
      - unfold Cache_Get. destruct (cache !! key) as [e|] eqn:He;
          [|by left].
        destruct (Z.ltb_spec 0 (Expiration e));
          destruct (Z.ltb_spec (Expiration e) (Unix now));
          cbn [andb fst]; try (by left).
        right. split; [done|]. eauto.
      - right. split; [|done].
        by rewrite Cache_Get_absent by apply lookup_delete_eq. }
    destruct (Cache_Get c0 key now) as [c1 [v|]]; cbn [fst snd] in *.
    + done.
    + by apply IH.
  - destruct (peer node); [done | by apply IH].
Qed.

Lemma handleGet_store_cases clust selfID K cache key now peer :
  (handleGet clust selfID K cache key now peer).2 = cache
  ∨ ((handleGet clust selfID K cache key now peer).2 = delete key cache
     ∧ ∃ e, cache !! key = Some e
            ∧ 0 < Expiration e ∧ Expiration e < Unix now).
Proof.
  unfold handleGet. destruct (decide (key = "")); [by left|].
  destruct (decide (length _ = 0%nat)); [by left|].
  apply getLoop_store_cases. by left.
Qed.

(** X16.  [handleGet] changes the store in one way only, by removing the
    entry of the requested key when it has expired: the store afterwards is
    the one before, or the one before without that expired entry; a live
    entry is never removed by a read. *)
Theorem handleGet_store clust selfID K cache key now peer :
  ((handleGet clust selfID K cache key now peer).2 = cache
   ∨ ((handleGet clust selfID K cache key now peer).2 = delete key cache
      ∧ ∃ e, cache !! key = Some e
             ∧ 0 < Expiration e ∧ Expiration e < Unix now))
  ∧ (∀ e, cache !! key = Some e →
       Expiration e ≤ 0 ∨ Unix now ≤ Expiration e →
       (handleGet clust selfID K cache key now peer).2 = cache).
Proof.
  pose proof (handleGet_store_cases clust selfID K cache key now peer)
    as Hcases.
  split; [exact Hcases|].
  intros e He Hlive. destruct Hcases as [?|[_ (e' & He' & H0 & H1)]]; [done|].
  rewrite He in He'. injection He' as <-. lia.
Qed.

(** X17.  Serving a request changes no entry of a key other
    than the one the request names; a request without a decodable body
    changes nothing. *)
Theorem serve_frame clust selfID K cache (r : Request) key' :
  (∀ key, requestKey r = Some key → key ≠ key') →
  serve clust selfID K cache r !! key' = cache !! key'.
Proof.
  intros Hne. destruct r as [body tReq tSet|key now peer|key NewRequest];
    cbn [serve requestKey] in *.
  - destruct body as [req|]; [|done].
    specialize (Hne (Key req) eq_refl).
    destruct (decide (Key req = "")) as [Hk|Hk].
    { unfold handleSet. by rewrite decide_True by done. }
    rewrite handleSet_unfold by done.
    destruct (decide (length _ = 0%nat)); [done|].
    destruct (replicaLoop _ _ _).2; cbn [negb]; [|done].
    destruct (Cache_Set _ _ _ _ _ _).2; cbn [store];
      by apply Cache_Set_other.
  - specialize (Hne key eq_refl).
    destruct (handleGet_store_cases clust selfID K cache key now peer)
      as [->|[-> _]]; [done|]. by apply lookup_delete_ne.
  - specialize (Hne key eq_refl).
    destruct (handleDelete_store NewRequest clust selfID K cache key)
      as [->| ->]; [done|]. by apply lookup_delete_ne.
Qed.

Lemma serve_frame_witness :
  serve (composeView "node1:8081") "node1:8081" 2
    {["other" := mkItem "x" 0 1]} (DeleteKey "key-1" (fun _ => true))
    !! "other"
  = ({["other" := mkItem "x" 0 1]} : Cache) !! "other".
Proof.
  apply serve_frame. intros key [= <-]. discriminate.
Defined.

End reads_more.

(** ** Convergence of a coordinated write *)

Section convergence.
Implicit Types (clust : Cluster) (net : Network) (req : SetRequest).

Lemma GetResponsibleNodes_same clust clust' key K :
  Nodes clust' = Nodes clust → Ring clust' = Ring clust →
  GetResponsibleNodes clust' key K = GetResponsibleNodes clust key K.
Proof. intros HN HR. unfold GetResponsibleNodes. by rewrite HN, HR. Qed.

Lemma stampOf_kept req ts t :
  ts ≠ 0 → stampOf (withStamp req ts) t = ts.
Proof.
  intros Hts. unfold stampOf. cbn [withStamp ReqLastUpdated].
  destruct (Z.eqb_spec ts 0); done.
Qed.

(** A forwarded write arriving on a ready replica is stored there with the
    timestamp it carries, and the replica forwards it no further. *)
Lemma postSet_ready clust K req ts net n t1 t2 :
  Key req ≠ "" → ts ≠ 0 →
  n ∈ GetResponsibleNodes clust (Key req) K →
  ready clust K (Key req) ts net n →
  ∃ p,
    net !! Addr n = Some p
    ∧ postSet net K (Addr n) (withStamp req ts) t1 t2
      = (<[Addr n :=
             mkProcess (pClust p) (pSelf p)
               (<[Key req := mkItem (ReqValue req) (expiry (TTL req) t2) ts]>
                  (pCache p))]> net,
         Some (mkOutcome (writeHeader StatusNoContent)
                 (<[Key req := mkItem (ReqValue req) (expiry (TTL req) t2) ts]>
                    (pCache p)) []))
    ∧ pSelf p = ID n
    ∧ Nodes (pClust p) = Nodes clust
    ∧ Ring (pClust p) = Ring clust
    ∧ (replicaLoop (pClust p) (ID n)
         (GetResponsibleNodes clust (Key req) K)).1 ≠ [].
Proof.
  intros Hk Hts Hn (p & Hp & Hself & HN & HR & Hhealthy & Hold).
  exists p. split_and!; try done.
  unfold postSet. rewrite Hp.
  assert (handleSet (pClust p) (pSelf p) K (pCache p)
            (Some (withStamp req ts)) t1 t2
          = mkOutcome (writeHeader StatusNoContent)
              (<[Key req := mkItem (ReqValue req) (expiry (TTL req) t2) ts]>
                 (pCache p)) []) as ->; [|done].
  rewrite handleSet_unfold by done.
  rewrite stampOf_kept by done.
  cbn [withStamp Key ReqValue TTL ReqLastUpdated].
  rewrite (GetResponsibleNodes_same clust (pClust p)) by done.
  rewrite Hself.
  destruct (decide (length _ = 0%nat)) as [H0|_].
  { by apply nil_length_inv in H0. }
  assert ((replicaLoop (pClust p) (ID n)
             (GetResponsibleNodes clust (Key req) K)).2 = true) as ->.
  { rewrite replicaLoop_spec. cbn [snd]. apply bool_decide_eq_true.
    by apply list_elem_of_fmap_2. }
  cbn [negb].
  assert (Cache_Set (pCache p) (Key req) (ReqValue req) (TTL req) ts t2
          = (<[Key req := mkItem (ReqValue req) (expiry (TTL req) t2) ts]>
               (pCache p), true)) as ->; [|done].
  destruct (pCache p !! Key req) as [e|] eqn:He.
  - apply (Cache_Set_fresh _ _ _ _ _ _ e); [done|]. by apply Hold.
  - by apply Cache_Set_absent.
Qed.

Lemma deliverAll_ready clust K req ts clock (targets : list Node) :
  Key req ≠ "" → ts ≠ 0 →
  (∀ n, n ∈ targets → n ∈ GetResponsibleNodes clust (Key req) K) →
  ∀ (fw : list Node) net,
    (∀ n, n ∈ fw → n ∈ targets) →
    Forall (ready clust K (Key req) ts net) targets →
    (deliverAll net K ((fun n => (n, withStamp req ts)) <$> fw) clock).2 = []
    ∧ Forall (ready clust K (Key req) ts
                (deliverAll net K ((fun n => (n, withStamp req ts)) <$> fw)
                   clock).1) targets
    ∧ (∀ n, n ∈ fw →
         ∃ exp,
           held (deliverAll net K ((fun n => (n, withStamp req ts)) <$> fw)
                   clock).1 (Addr n) (Key req)
           = Some (mkItem (ReqValue req) exp ts))
    ∧ (∀ a, (∀ n, n ∈ fw → Addr n ≠ a) →
         (deliverAll net K ((fun n => (n, withStamp req ts)) <$> fw)
            clock).1 !! a = net !! a).
Proof.
  intros Hk Hts Hrep fw net. unfold deliverAll.
  induction fw as [|m fw IH] using rev_ind; intros Hsub Hready.
  { cbn [fmap list_fmap foldl fst snd]. split_and!; try done.
    intros n Hn. by inversion Hn. }
  rewrite fmap_app, foldl_app. cbn [fmap list_fmap foldl].
  destruct IH as (Hsent & Hready' & Hheld & Hother).
  { intros n Hn. apply Hsub, elem_of_app. by left. }
  { done. }
  set (st := foldl _ (net, []) ((fun n => (n, withStamp req ts)) <$> fw)) in *.
  cbn [fst snd].
  assert (m ∈ targets) as Hm by (apply Hsub, elem_of_app; right; by left).
  destruct (postSet_ready clust K req ts st.1 m (clock m).1 (clock m).2
              Hk Hts (Hrep m Hm)
              (proj1 (Forall_forall _ _) Hready' m Hm))
    as (p & Hp & Hpost & Hself & HN & HR & Hhealthy).
  rewrite Hpost. cbn [fst snd fmap option_fmap option_map default sent].
  split_and!.
  - by rewrite Hsent.
  - apply Forall_forall. intros n Hn.
    destruct (proj1 (Forall_forall _ _) Hready' n Hn)
      as (q & Hq & Hqs & HqN & HqR & Hqh & Hqold).
    destruct (decide (Addr n = Addr m)) as [Ha|Ha].
    + rewrite Ha in Hq. rewrite Hp in Hq. injection Hq as <-.
      eexists. rewrite Ha, lookup_insert_eq. split; [done|].
      cbn [pSelf pClust pCache]. split_and!; try done.
      intros e. rewrite lookup_insert_eq. intros [= <-]. cbn. lia.
    + exists q. rewrite lookup_insert_ne by done. done.
  - intros n Hn. apply elem_of_app in Hn as [Hn|Hn].
    + destruct (Hheld n Hn) as [exp Hexp].
      destruct (decide (Addr n = Addr m)) as [Ha|Ha].
      * eexists. unfold held. rewrite Ha, lookup_insert_eq. cbn.
        by rewrite lookup_insert_eq.
      * exists exp. unfold held in *. by rewrite lookup_insert_ne.
    + apply list_elem_of_singleton in Hn as ->.
      eexists. unfold held. rewrite lookup_insert_eq. cbn.
      by rewrite lookup_insert_eq.
  - intros a Ha. rewrite lookup_insert_ne.
    + apply Hother. intros n Hn. apply Ha, elem_of_app. by left.
    + apply Ha, elem_of_app. right. by left.
Qed.

(** X12.  A write with a key and a non-zero assigned timestamp
    arrives on a node that is not a replica for the key, and every healthy
    replica it sees is ready.  Then the client gets 204, every one of those
    replicas ends up holding the value with the one timestamp the
    coordinator assigned, whatever clock each replica reads, no replica
    forwards the write again, and the coordinator's own store is as
    before. *)
Theorem coordinator_write_converges net K addr pc req tReq tSet clock :
  net !! addr = Some pc →
  Key req ≠ "" →
  stampOf req tReq ≠ 0 →
  (replicaLoop (pClust pc) (pSelf pc)
     (GetResponsibleNodes (pClust pc) (Key req) K)).2 = false →
  (replicaLoop (pClust pc) (pSelf pc)
     (GetResponsibleNodes (pClust pc) (Key req) K)).1 ≠ [] →
  Forall (ready (pClust pc) K (Key req) (stampOf req tReq) net)
    (replicaLoop (pClust pc) (pSelf pc)
       (GetResponsibleNodes (pClust pc) (Key req) K)).1 →
  (clientSetAt net K addr req tReq tSet clock).1.2
  = Some (writeHeader StatusNoContent)
  ∧ (clientSetAt net K addr req tReq tSet clock).2 = []
  ∧ (∀ n, n ∈ (replicaLoop (pClust pc) (pSelf pc)
                 (GetResponsibleNodes (pClust pc) (Key req) K)).1 →
       ∃ exp,
         held (clientSetAt net K addr req tReq tSet clock).1.1 (Addr n)
           (Key req)
         = Some (mkItem (ReqValue req) exp (stampOf req tReq)))
  ∧ (∀ key, held (clientSetAt net K addr req tReq tSet clock).1.1 addr key
            = held net addr key).
Proof.
  intros Hpc Hk Hts Hrep Hne Hready.
  set (loop := replicaLoop (pClust pc) (pSelf pc)
                 (GetResponsibleNodes (pClust pc) (Key req) K)) in *.
  assert (postSet net K addr req tReq tSet
          = (net,
             Some (mkOutcome (writeHeader StatusNoContent) (pCache pc)
                     ((fun n => (n, withStamp req (stampOf req tReq)))
                        <$> loop.1)))) as Hpost.
  { unfold postSet. rewrite Hpc.
    rewrite handleSet_coordinator_forwards by done. cbn [store].
    f_equal. apply insert_id. rewrite Hpc. by destruct pc. }
  unfold clientSetAt. rewrite Hpost. cbn [fst snd sent reply].
  destruct (deliverAll_ready (pClust pc) K req (stampOf req tReq) clock
              loop.1 Hk Hts) with (fw := loop.1) (net := net)
    as (Hsent & _ & Hheld & Hother); try done.
  { intros n Hn. by apply replicaLoop_healthy in Hn as [? _]. }
  split_and!; try done.
  intros key. unfold held. rewrite Hother; [done|].
  intros n Hn Ha.
  destruct (proj1 (Forall_forall _ _) Hready n Hn) as (q & Hq & Hqs & _).
  rewrite Ha, Hpc in Hq. injection Hq as <-.
  apply replicaLoop_healthy in Hn as [Hn _].
  unfold loop in Hrep. rewrite replicaLoop_spec in Hrep. cbn [snd] in Hrep.
  apply bool_decide_eq_false in Hrep. apply Hrep.
  rewrite Hqs. by apply list_elem_of_fmap_2.
Qed.

End convergence.

Section convergence_witness.

Lemma coordinator_write_converges_witness :
  (clientSetAt miniNet 2 "node3:8083" (mkSet "key-3" "v" 0 100) 0 0
     (fun _ => (7, 9))).2 = [].
Proof.
  refine (proj1 (proj2 (coordinator_write_converges miniNet 2 "node3:8083"
            (mkProcess (miniView "node3:8083") "node3:8083" NewCache)
            (mkSet "key-3" "v" 0 100) 0 0 (fun _ => (7, 9)) _ _ _ _ _ _))).
  - vm_compute. reflexivity.
  - discriminate.
  - vm_compute. discriminate.
  - vm_compute. reflexivity.
  - vm_compute. discriminate.
  - assert ((replicaLoop (miniView "node3:8083") "node3:8083"
               (GetResponsibleNodes (miniView "node3:8083") "key-3" 2)).1
            = [mkNode "node1:8081" "node1:8081";
               mkNode "node2:8082" "node2:8082"]) as Hl
      by (vm_compute; reflexivity).
    cbn [pClust pSelf Key]. rewrite Hl.
    repeat constructor.
    + exists (mkProcess (miniView "node1:8081") "node1:8081" NewCache).
      split_and!; try (vm_compute; reflexivity).
      * vm_compute. discriminate.
      * intros e He. unfold NewCache in He. cbn [pCache] in He.
        by rewrite lookup_empty in He.
    + exists (mkProcess (miniView "node2:8082") "node2:8082" NewCache).
      split_and!; try (vm_compute; reflexivity).
      * vm_compute. discriminate.
      * intros e He. unfold NewCache in He. cbn [pCache] in He.
        by rewrite lookup_empty in He.
Defined.

End convergence_witness.

(** ** Metrics *)

Section metrics.

Lemma counter_Inc v label label' :
  counter (Inc v label) label'
  = if decide (label = label') then S (counter v label') else counter v label'.
Proof.
  unfold Inc, counter at 1. destruct (decide (label = label')) as [->|Hne].
  - by rewrite lookup_insert_eq.
  - by rewrite lookup_insert_ne.
Qed.

Lemma serveCounted_run selfID K label : ∀ rs cache ms,
  counter (RequestCount (foldl (serveCounted selfID K) (cache, ms) rs).2) label
  = (counter (RequestCount ms) label + (tally selfID K label cache rs).1)%nat
  ∧ counter (ErrorCount (foldl (serveCounted selfID K) (cache, ms) rs).2) label
    = (counter (ErrorCount ms) label + (tally selfID K label cache rs).2)%nat
  ∧ (foldl (serveCounted selfID K) (cache, ms) rs).1
    = serveAll selfID K cache rs.
Proof.
  induction rs as [|r rs IH]; intros cache ms.
  { cbn [foldl tally fst snd]. unfold serveAll. cbn [foldl].
    split_and!; [lia | lia | done]. }
  cbn [foldl tally]. unfold serveCounted at 2 4 6. cbn [fst snd].
  destruct (IH (serve r.1 selfID K cache r.2)
              (InstrumentHandler (methodOf r.2)
                 (writtenStatus r.1 selfID K cache r.2) ms))
    as (Hreq & Herr & Hstore).
  rewrite Hreq, Herr, Hstore. unfold InstrumentHandler.
  cbn [RequestCount ErrorCount]. rewrite counter_Inc.
  fold (failed selfID K cache r).
  split_and!.
  - destruct (decide (methodOf r.2 = label)); cbn [fst]; lia.
  - destruct (failed selfID K cache r) eqn:Hf.
    + rewrite counter_Inc.
      destruct (decide (methodOf r.2 = label)); cbn [snd]; lia.
    + destruct (decide (methodOf r.2 = label)); cbn [snd]; lia.
  - unfold serveAll. done.
Qed.

Lemma tally_le selfID K label : ∀ rs cache,
  ((tally selfID K label cache rs).2 ≤ (tally selfID K label cache rs).1
   ≤ length rs)%nat.
Proof.
  induction rs as [|r rs IH]; intros cache; cbn [tally length fst snd];
    [lia|].
  specialize (IH (serve r.1 selfID K cache r.2)).
  destruct (decide (methodOf r.2 = label)); [|lia].
  destruct (failed selfID K cache r); cbn [fst snd]; lia.
Qed.

(** X18.  After any sequence of instrumented requests, starting
    from fresh metrics, the request counter of a label counts the requests
    with that label and the error counter those of them answered with a
    status of 400 or more; so the error counter never exceeds the request
    counter, and wrapping the handlers changes nothing in the store. *)
Theorem metrics_count_requests selfID K label cache
    (rs : list (Cluster * Request)) :
  let final := foldl (serveCounted selfID K) (cache, NewMetrics) rs in
  counter (RequestCount final.2) label = (tally selfID K label cache rs).1
  ∧ counter (ErrorCount final.2) label = (tally selfID K label cache rs).2
  ∧ (counter (ErrorCount final.2) label
     ≤ counter (RequestCount final.2) label ≤ length rs)%nat
  ∧ final.1 = serveAll selfID K cache rs.
Proof.
  intros final. unfold final.
  destruct (serveCounted_run selfID K label rs cache NewMetrics)
    as (Hreq & Herr & Hstore).
  rewrite Hreq, Herr, Hstore. cbn [NewMetrics RequestCount ErrorCount].
  unfold counter. rewrite !lookup_empty. cbn [default].
  pose proof (tally_le selfID K label rs cache).
  split_and!; (done || lia).
Qed.

End metrics.

(** ** Start-up *)

Section startup.

Lemma splitOn_nonempty sep s : splitOn sep s ≠ [].
Proof.
  destruct s as [|ch rest]; cbn [splitOn]; [done|].
  destruct (Ascii.eqb ch sep); [done|].
  by destruct (splitOn sep rest).
Qed.

Lemma splitOn_length sep s : length (splitOn sep s) = S (countSep sep s).
Proof.
  induction s as [|ch rest IH]; cbn [splitOn countSep]; [done|].
  destruct (Ascii.eqb ch sep); cbn [length]; [by rewrite IH|].
  destruct (splitOn sep rest) as [|piece pieces] eqn:Hs.
  - by destruct (splitOn_nonempty sep rest).
  - cbn [length] in *. done.
Qed.

Lemma splitOn_join sep s : joinWith sep (splitOn sep s) = s.
Proof.
  induction s as [|ch rest IH]; cbn [splitOn]; [done|].
  destruct (Ascii.eqb_spec ch sep) as [->|Hne].
  - destruct (splitOn sep rest) as [|piece pieces] eqn:Hs.
    { by destruct (splitOn_nonempty sep rest). }
    cbn [joinWith]. cbn [joinWith] in IH. rewrite IH. done.
  - destruct (splitOn sep rest) as [|piece pieces] eqn:Hs.
    { by destruct (splitOn_nonempty sep rest). }
    destruct pieces as [|p2 ps]; cbn [joinWith] in *; by rewrite <- IH.
Qed.

Lemma splitOn_clean sep s :
  Forall (fun piece => countSep sep piece = 0%nat) (splitOn sep s).
Proof.
  induction s as [|ch rest IH]; cbn [splitOn].
  { by repeat constructor. }
  destruct (Ascii.eqb ch sep) eqn:Heq.
  - constructor; [done | exact IH].
  - destruct (splitOn sep rest) as [|piece pieces].
    + repeat constructor. cbn [countSep]. by rewrite Heq.
    + apply Forall_cons in IH as [Hp Hps]. constructor; [|done].
      cbn [countSep]. by rewrite Heq.
Qed.

(** X19.  Whatever [bytes.TrimSpace] does, [splitAndTrim] returns
    one entry for every comma-separated field of its input, in order: one
    more than there are commas, so never an empty list; the fields
    themselves hold no comma and, joined with commas, are the input. *)
Theorem splitAndTrim_fields (TrimSpace : string → string) s :
  length (splitAndTrim TrimSpace s) = S (countSep comma s)
  ∧ splitAndTrim TrimSpace s ≠ []
  ∧ splitAndTrim TrimSpace s = TrimSpace <$> splitOn comma s
  ∧ joinWith comma (splitOn comma s) = s
  ∧ Forall (fun piece => countSep comma piece = 0%nat) (splitOn comma s).
Proof.
  unfold splitAndTrim. split_and!.
  - by rewrite length_fmap, splitOn_length.
  - intros H. apply fmap_nil_inv in H. by apply (splitOn_nonempty comma s).
  - done.
  - apply splitOn_join.
  - apply splitOn_clean.
Qed.

End startup.

Section startup_config.

Lemma StartHealthMonitor_same c :
  Nodes (StartHealthMonitor c) = Nodes c
  ∧ Ring (StartHealthMonitor c) = Ring c.
Proof. unfold StartHealthMonitor. by destruct (Health c). Qed.

Lemma mainCluster_responsible cfg key k :
  GetResponsibleNodes (mainCluster cfg) key k
  = (fun id => mkNode id id)
      <$> GetReplicas
            (Ring (NewCluster (cfgSelfID cfg) (cfgNodeAddrs cfg) 100)) key k.
Proof.
  unfold mainCluster.
  destruct (StartHealthMonitor_same
              (NewCluster (cfgSelfID cfg) (cfgNodeAddrs cfg) 100)) as [HN HR].
  rewrite (GetResponsibleNodes_same _ _ key k HN HR).
  apply NewCluster_resolves.
Qed.

(** X20.  Whatever the environment holds, the configuration [main] ends
    with has a positive replica count (2 unless REPLICA_COUNT parses to a
    positive number), a non-empty port and node ID and at least one node
    address; the ring it builds has 100 points per address, so every key
    has at least one responsible node and a 503 can only come from the
    health map.  With NODES unset the node is alone in its cluster and is
    the one responsible node of every key. *)
Theorem main_config (Getenv : string → string) (Atoi : string → option Z)
    (TrimSpace : string → string) :
  let cfg := loadConfig Getenv Atoi TrimSpace in
  1 ≤ cfgReplicaCount cfg
  ∧ cfgPort cfg ≠ ""
  ∧ cfgSelfID cfg ≠ ""
  ∧ cfgNodeAddrs cfg ≠ []
  ∧ length (nodes (Ring (mainCluster cfg)))
    = (100 * length (cfgNodeAddrs cfg))%nat
  ∧ (∀ key,
       GetResponsibleNodes (mainCluster cfg) key (cfgReplicaCount cfg) ≠ [])
  ∧ (Getenv "NODES" = "" →
     ∀ key,
       GetResponsibleNodes (mainCluster cfg) key (cfgReplicaCount cfg)
       = [mkNode (cfgSelfID cfg) (cfgSelfID cfg)]).
Proof.
  intros cfg.
  assert (1 ≤ cfgReplicaCount cfg) as Hrc.
  { unfold cfg, loadConfig. cbn [cfgReplicaCount].
    destruct (decide (Getenv "REPLICA_COUNT" = "")); [lia|].
    destruct (Atoi _) as [rc|]; [|lia].
    destruct (Z.ltb_spec 0 rc); lia. }
  assert (cfgPort cfg ≠ "") as Hport.
  { unfold cfg, loadConfig. cbn [cfgPort].
    by destruct (decide (Getenv "PORT" = "")). }
  assert (cfgSelfID cfg ≠ "") as Hself.
  { unfold cfg, loadConfig. cbn [cfgSelfID].
    by destruct (decide (Getenv "NODE_ID" = "")). }
  assert (cfgNodeAddrs cfg ≠ []) as Haddrs.
  { unfold cfg, loadConfig. cbn [cfgNodeAddrs].
    destruct (decide (Getenv "NODES" = "")); [done|].
    unfold splitAndTrim. intros H. apply fmap_nil_inv in H.
    by apply (splitOn_nonempty comma (Getenv "NODES")). }
  assert (length (nodes (Ring (mainCluster cfg)))
          = (100 * length (cfgNodeAddrs cfg))%nat) as Hlen.
  { unfold mainCluster.
    rewrite (proj2 (StartHealthMonitor_same _)), NewCluster_length. lia. }
  assert (nodes (Ring (NewCluster (cfgSelfID cfg) (cfgNodeAddrs cfg) 100))
          ≠ []) as Hne.
  { intros Hnil. apply (f_equal length) in Hnil.
    rewrite NewCluster_length in Hnil. cbn [length] in Hnil.
    destruct (cfgNodeAddrs cfg); [done | cbn [length] in Hnil; lia]. }
  split_and!; try done.
  - intros key. rewrite mainCluster_responsible.
    pose proof (GetReplicas_head _ key (cfgReplicaCount cfg) Hne Hrc) as Hh.
    destruct (GetReplicas _ key (cfgReplicaCount cfg)); done.
  - intros Hnodes key. rewrite mainCluster_responsible.
    assert (cfgNodeAddrs cfg = [cfgSelfID cfg]) as Hone.
    { unfold cfg, loadConfig. cbn [cfgNodeAddrs cfgSelfID].
      by rewrite decide_True by done. }
    pose proof (GetReplicas_head _ key (cfgReplicaCount cfg) Hne Hrc) as Hh.
    assert (NoDup (GetReplicas
                     (Ring (NewCluster (cfgSelfID cfg) (cfgNodeAddrs cfg) 100))
                     key (cfgReplicaCount cfg))) as Hnd.
    { rewrite GetReplicas_spec by done.
      eapply sublist_NoDup; [apply firstSeen_NoDup | apply sublist_take]. }
    assert (∀ id, id ∈ GetReplicas
                         (Ring (NewCluster (cfgSelfID cfg)
                                  (cfgNodeAddrs cfg) 100))
                         key (cfgReplicaCount cfg) →
                  id = cfgSelfID cfg) as Hall.
    { intros id Hid. apply NewCluster_ids in Hid.
      rewrite Hone in Hid. by apply list_elem_of_singleton in Hid. }
    destruct (GetReplicas _ key (cfgReplicaCount cfg)) as [|a [|b l]];
      [done | |].
    + rewrite (Hall a) by (by left). done.
    + exfalso. apply NoDup_cons in Hnd as [Hnot _]. apply Hnot.
      rewrite (Hall a) by (by left).
      rewrite (Hall b) by (right; by left). by left.
Qed.

End startup_config.

(** ** The digest behind the ring positions *)

Section digest_more.

Lemma mask32_range x : 0 ≤ SHA1.mask32 x < 4294967296.
Proof.
  unfold SHA1.mask32. change 4294967295 with (Z.ones 32).
  rewrite Z.land_ones by lia. apply Z.mod_pos_bound. lia.
Qed.

Lemma be_bytes_4 x :
  SHA1.be_bytes 4 x
  = [Z.land (Z.shiftr (Z.shiftr (Z.shiftr x 8) 8) 8) 255;
     Z.land (Z.shiftr (Z.shiftr x 8) 8) 255;
     Z.land (Z.shiftr x 8) 255;
     Z.land x 255].
Proof. reflexivity. Qed.

Lemma recombine x :
  0 ≤ x < 4294967296 →
  Z.lor (Z.shiftl (Z.land (Z.shiftr (Z.shiftr (Z.shiftr x 8) 8) 8) 255) 24)
    (Z.lor (Z.shiftl (Z.land (Z.shiftr (Z.shiftr x 8) 8) 255) 16)
       (Z.lor (Z.shiftl (Z.land (Z.shiftr x 8) 255) 8) (Z.land x 255)))
  = x.
Proof.
  intros Hx. apply Z.bits_inj'. intros n Hn.
  rewrite !Z.lor_spec.
  change 255 with (Z.ones 8).
  rewrite !Z.shiftr_shiftr by lia. cbn [Z.add Pos.add Pos.succ].
  destruct (Z.lt_ge_cases n 8) as [H8|H8].
  { rewrite !Z.shiftl_spec_low by lia.
    rewrite Z.land_spec, Z.ones_spec_low by lia.
    by rewrite andb_true_r. }
  destruct (Z.lt_ge_cases n 16) as [H16|H16].
  { rewrite (Z.shiftl_spec_low _ 24), (Z.shiftl_spec_low _ 16) by lia.
    rewrite Z.shiftl_spec by lia.
    rewrite !Z.land_spec, Z.shiftr_spec by lia.
    rewrite Z.ones_spec_low, (Z.ones_spec_high 8 n) by lia.
    rewrite !andb_true_r, andb_false_r, orb_false_r. cbn [orb].
    f_equal. lia. }
  destruct (Z.lt_ge_cases n 24) as [H24|H24].
  { rewrite (Z.shiftl_spec_low _ 24) by lia.
    rewrite !Z.shiftl_spec by lia.
    rewrite !Z.land_spec, !Z.shiftr_spec by lia.
    rewrite (Z.ones_spec_low 8 (n - 16)), (Z.ones_spec_high 8 (n - 8)),
      (Z.ones_spec_high 8 n) by lia.
    rewrite !andb_true_r, !andb_false_r, !orb_false_r. cbn [orb].
    f_equal. lia. }
  rewrite !Z.shiftl_spec by lia.
  rewrite !Z.land_spec, !Z.shiftr_spec by lia.
  rewrite (Z.ones_spec_high 8 (n - 16)), (Z.ones_spec_high 8 (n - 8)),
    (Z.ones_spec_high 8 n) by lia.
  rewrite !andb_false_r, !orb_false_r.
  destruct (Z.lt_ge_cases n 32) as [H32|H32].
  - rewrite Z.ones_spec_low by lia. rewrite andb_true_r. f_equal. lia.
  - rewrite Z.ones_spec_high by lia. rewrite andb_false_r.
    symmetry. destruct (Z.eq_dec x 0) as [->|Hx0]; [apply Z.bits_0|].
    apply Z.bits_above_log2; [lia|].
    assert (Z.log2 x < 32); [|lia]. apply Z.log2_lt_pow2; lia.
Qed.

Lemma blocks_range : ∀ fuel s ws,
  0 ≤ SHA1.he s < 4294967296 →
  0 ≤ SHA1.he (SHA1.blocks fuel s ws) < 4294967296.
Proof.
  induction fuel as [|fuel IH]; intros s ws Hs; cbn [SHA1.blocks]; [done|].
  destruct ws; [done|]. apply IH. unfold SHA1.block. cbn [SHA1.he].
  apply mask32_range.
Qed.

(** X21.  [hashKey] is the fifth 32-bit word of the SHA-1 state, read back
    from bytes 16 to 19 of the digest, and so lies in [0, 2^32): every
    point of the ring is a non-negative [int] below 2^32. *)
Theorem hashKey_range key :
  hashKey key = SHA1.he (SHA1.digest (SHA1.bytes_of_string key))
  ∧ 0 ≤ hashKey key < 4294967296.
Proof.
  assert (0 ≤ SHA1.he (SHA1.digest (SHA1.bytes_of_string key)) < 4294967296)
    as Hr.
  { unfold SHA1.digest. apply blocks_range. cbn. lia. }
  assert (hashKey key = SHA1.he (SHA1.digest (SHA1.bytes_of_string key)))
    as Heq.
  { unfold hashKey, SHA1.sum. rewrite !be_bytes_4.
    cbn [app lookup_total list_lookup_total]. by apply recombine. }
  by rewrite Heq.
Qed.

End digest_more.

(** ** Adding a node and taking it out again *)

Section ring_round_trip.
Implicit Types (h : HashRing).

Lemma filter_none {A} (P : A → Prop) `{∀ x, Decision (P x)} (l : list A) :
  Forall (fun x => ¬ P x) l → filter P l = [].
Proof.
  induction 1 as [|x l Hx Hl IH]; [done|].
  by rewrite filter_cons_False.
Qed.

(** When every hash to remove still has its owner and occurs once, the
    loop of [RemoveNode] drops exactly those hashes. *)
Lemma removePoint_exact nodeID (P : list Z) : ∀ l acc m,
  (∀ x, x ∈ l → x ∈ P → m !! x = Some nodeID) →
  (∀ x, x ∈ l → x ∉ P → owner m x ≠ nodeID) →
  NoDup (filter (fun x => x ∈ P) l) →
  (foldl (removePoint nodeID) (acc, m) l).1
  = acc ++ filter (fun x => x ∉ P) l
  ∧ ∀ x, (foldl (removePoint nodeID) (acc, m) l).2 !! x
         = if decide (x ∈ l ∧ x ∈ P) then None else m !! x.
Proof.
  induction l as [|x0 l IH]; intros acc m Hin Hout Hnd; cbn [foldl].
  { cbn [fst snd]. rewrite filter_nil, app_nil_r. split; [done|].
    intros x. rewrite decide_False; [done|]. intros [Hx _]. by inversion Hx. }
  unfold removePoint at 2 4. cbn [fst snd].
  destruct (decide (x0 ∈ P)) as [Hp|Hp].
  - assert (owner m x0 = nodeID) as Ho.
    { unfold owner. rewrite (Hin x0) by (done || by left). done. }
    rewrite decide_True by done.
    rewrite filter_cons_True in Hnd by done.
    apply NoDup_cons in Hnd as [Hfresh Hnd].
    assert (∀ x, x ∈ l → x ∈ P → x ≠ x0) as Hne.
    { intros x Hx HxP ->. apply Hfresh. by apply list_elem_of_filter. }
    destruct (IH acc (delete x0 m)) as [H1 H2]; try done.
    { intros x Hx HxP. rewrite lookup_delete_ne by (by apply not_eq_sym, Hne).
      apply Hin; [by right | done]. }
    { intros x Hx HxP. unfold owner.
      rewrite lookup_delete_ne by (by intros ->).
      apply Hout; [by right | done]. }
    split.
    + rewrite H1. by rewrite (filter_cons_False (fun x => x ∉ P)) by tauto.
    + intros x. rewrite H2.
      destruct (decide (x = x0)) as [->|Hx0].
      * rewrite lookup_delete_eq.
        rewrite (decide_True (P:=x0 ∈ x0 :: l ∧ x0 ∈ P)); [|split; [by left|done]].
        by destruct (decide _).
      * rewrite lookup_delete_ne by done.
        apply decide_ext. rewrite elem_of_cons. naive_solver.
  - assert (owner m x0 ≠ nodeID) as Ho by (apply Hout; [by left | done]).
    rewrite decide_False by done.
    rewrite filter_cons_False in Hnd by done.
    destruct (IH (acc ++ [x0]) m) as [H1 H2]; try done.
    { intros x Hx HxP. apply Hin; [by right | done]. }
    { intros x Hx HxP. apply Hout; [by right | done]. }
    split.
    + rewrite H1, filter_cons_True by done. by rewrite <- app_assoc.
    + intros x. rewrite H2. apply decide_ext. rewrite elem_of_cons.
      split; [naive_solver|]. intros [[->|Hx] HxP]; [done | done].
Qed.

(** X22.  Adding a node and removing it again gives back the ring as it
    was, provided no point of the ring reads as the node's before, and the
    node's virtual points collide neither with each other nor with a
    point already on the ring. *)
Theorem RemoveNode_AddNode h (nodeID : string) :
  ring_built h →
  Forall (fun x => owner (nodeMap h) x ≠ nodeID) (nodes h) →
  NoDup (pointsOf nodeID (replicas h)) →
  Forall (fun x => x ∉ nodes h) (pointsOf nodeID (replicas h)) →
  RemoveNode (AddNode h nodeID) nodeID = h.
Proof.
  intros Hb Hnew Hnd Hdisj.
  set (P := pointsOf nodeID (replicas h)) in *.
  pose proof (ring_built_sorted h Hb) as Hsorted.
  pose proof (ring_built_keys h Hb) as Hkeys.
  rewrite Forall_forall in Hnew, Hdisj.
  pose proof (AddNode_nodes h nodeID) as Hperm. fold P in Hperm.
  assert (filter (fun x => x ∈ P) (nodes h) = []) as Hf1.
  { apply filter_none, Forall_forall. intros x Hx HxP. by apply (Hdisj x). }
  assert (filter (fun x => x ∉ P) P = []) as Hf2.
  { apply filter_none, Forall_forall. intros x Hx HxP. by apply HxP. }
  assert (filter (fun x => x ∈ P) P = P) as Hf3.
  { apply filter_all, Forall_forall. done. }
  assert (filter (fun x => x ∉ P) (nodes h) = nodes h) as Hf4.
  { apply filter_all, Forall_forall. intros x Hx HxP. by apply (Hdisj x). }
  destruct (removePoint_exact nodeID P (nodes (AddNode h nodeID)) []
              (nodeMap (AddNode h nodeID))) as [Hnodes Hmap].
  { intros x _ Hx. rewrite AddNode_nodeMap. by rewrite decide_True. }
  { intros x Hx HxP. unfold owner. rewrite AddNode_nodeMap.
    rewrite decide_False by done. apply Hnew.
    rewrite Hperm, elem_of_app in Hx. by destruct Hx. }
  { rewrite Hperm, filter_app, Hf1, Hf3. done. }
  assert ((foldl (removePoint nodeID) ([], nodeMap (AddNode h nodeID))
             (nodes (AddNode h nodeID))).1 = nodes h) as Hn.
  { apply (Sorted_unique Z.le).
    - apply StronglySorted_Sorted, removePoint_sorted. cbn [app].
      apply Sorted_StronglySorted; [apply _ | apply AddNode_sorted].
    - done.
    - rewrite Hnodes. cbn [app].
      rewrite Hperm, filter_app, Hf2, Hf4, app_nil_r. done. }
  assert ((foldl (removePoint nodeID) ([], nodeMap (AddNode h nodeID))
             (nodes (AddNode h nodeID))).2 = nodeMap h) as Hm.
  { apply map_eq. intros x. rewrite Hmap, AddNode_nodeMap. fold P.
    destruct (decide (x ∈ P)) as [HxP|HxP].
    - rewrite decide_True.
      + symmetry. apply eq_None_not_Some. intros Hs.
        by apply (Hdisj x), Hkeys.
      + split; [|done]. rewrite Hperm, elem_of_app. by right.
    - rewrite decide_False by tauto. done. }
  unfold RemoveNode. rewrite Hn, Hm, AddNode_replicas. by destruct h.
Qed.

Lemma RemoveNode_AddNode_witness :
  RemoveNode (AddNode (AddNode (NewHashRing 3) "a") "b") "b"
  = AddNode (NewHashRing 3) "a".
Proof.
  refine (RemoveNode_AddNode (AddNode (NewHashRing 3) "a") "b" _ _ _ _).
  - repeat constructor.
  - apply (bool_decide_unpack _). vm_compute. exact I.
  - apply (bool_decide_unpack _). vm_compute. exact I.
  - apply (bool_decide_unpack _). vm_compute. exact I.
Defined.

End ring_round_trip.
